(** * groq-builder: the projection compiler ([project]) and the builder core

    A shallow embedding of
    - [commands/project.ts] in its two revisions: the one that checks
      [validationRequired] (module [New]) and the earlier one (module [Old]);
    - the [GroqBuilder] class ([query], [parser], [chain]);
    - the [validation] object.

    JavaScript objects used as maps are [gmap string _]; the projection map,
    whose iteration order is observable in the emitted query, is the list of
    its entries in [Object.keys] order.  Functions that may [throw] return a
    [result]. *)

From stdpp Require Import gmap strings list fin_maps pretty.

Set Warnings "-register-all".
Set Default Proof Using "Type".

(** ** Runtime values *)

(** JSON-like values that travel through parsers.  Numbers are opaque to the
    compiler, they are carried as integers. *)
Inductive Value : Type :=
  | VUndefined
  | VNull
  | VBool (b : bool)
  | VNum (z : Z)
  | VStr (s : string)
  | VArr (items : list Value)
  | VObj (props : gmap string Value).

(** [Array.isArray] *)
Definition Array_isArray (v : Value) : bool :=
  match v with VArr _ => true | _ => false end.

(** What a [throw] carries. *)
Inductive Exn : Type :=
  | Error (message : string)
  | TypeError (message : string)
  | OtherError (name message : string).

Inductive result (A : Type) : Type :=
  | Ok (a : A)
  | Throw (e : Exn).
Arguments Ok {A} a.
Arguments Throw {A} e.

#[global] Instance result_ret : MRet result := λ A a, Ok a.
#[global] Instance result_bind : MBind result := λ A B f r,
  match r with Ok a => f a | Throw e => Throw e end.
#[global] Instance result_fmap : FMap result := λ A B f r,
  match r with Ok a => Ok (f a) | Throw e => Throw e end.

(** ** Strings *)

(** The double-quote character of the template literals. *)
Definition dq : string := String (Ascii.ascii_of_nat 34) EmptyString.

(** [Array.prototype.join] on an array of strings. *)
Fixpoint join (sep : string) (l : list string) : string :=
  match l with
  | [] => EmptyString
  | [x] => x
  | x :: rest => x +:+ sep +:+ join sep rest
  end.

(** [s.includes(sub)] as a proposition. *)
Definition includes (s sub : string) : Prop :=
  ∃ pre post, s = pre +:+ sub +:+ post.

(** ** Parsers *)

Definition ParserFunction : Type := Value → result Value.

(** The public [Parser] type: a function, or an object with a [parse] method. *)
Inductive Parser : Type :=
  | ParserFn (f : ParserFunction)
  | ParserObject (parse : ParserFunction).

(** Modelled from the spec: [normalizeValidationFunction] of
    [./validate-utils] is not part of the sources at hand.  The parser is
    wrapped to the uniform parser-function shape: a function stays that
    function, a validation object contributes its [parse] method. *)
Definition normalizeValidationFunction (p : Parser) : option ParserFunction :=
  match p with
  | ParserFn f => Some (λ input, f input)
  | ParserObject parse => Some (λ input, parse input)
  end.

(** Modelled from the spec: [chainParsers] of [./commands/parseUtils] is not
    part of the sources at hand.  Both absent: absent; one absent: the other,
    not wrapped; both present: the first runs, the second runs on its output,
    and a failure of either stage is the failure of the whole. *)
Definition chainParsers (a b : option ParserFunction) : option ParserFunction :=
  match a, b with
  | None, None => None
  | Some a, None => Some a
  | None, Some b => Some b
  | Some a, Some b => Some (λ input, a input ≫= b)
  end.

(** ** The builder core *)

Record GroqBuilderOptions : Type := {
  indent : string;
  validationRequired : bool;
}.

(** The [internal] object of a [GroqBuilder]. *)
Record GroqBuilder : Type := {
  query : string;
  parser : option ParserFunction;
  options : GroqBuilderOptions;
}.

(** [chain(query, parser = null)]: the object handed to [new GroqBuilder]. *)
Definition chain (this : GroqBuilder) (q : string)
    (p : option ParserFunction) : GroqBuilder :=
  {| query := query this +:+ q;
     parser := chainParsers (parser this) p;
     options := options this |}.

(** [any(query, parse?)], the escape hatch. *)
Definition any (this : GroqBuilder) (q : string)
    (parse : option ParserFunction) : GroqBuilder :=
  chain this q parse.

(** Builders are objects: a store maps each reference to the builder's
    [internal] record, and [new GroqBuilder(...)] allocates. *)
Module Store.

Definition loc : Type := positive.
Definition store : Type := gmap loc GroqBuilder.

Definition alloc (σ : gmap loc GroqBuilder) (b : GroqBuilder)
    : loc * gmap loc GroqBuilder :=
  let l := fresh (dom σ) in (l, <[l := b]> σ).

(** [this.chain(query, parser)] on the builder stored at [this]. *)
Definition chain (σ : gmap loc GroqBuilder) (this : loc) (q : string)
    (p : option ParserFunction) : option (loc * gmap loc GroqBuilder) :=
  b ← σ !! this;
  Some (alloc σ (chain b q p)).

End Store.

(** The same objects with their references kept: the [internal] object
    of a builder holds the query, the parser and a reference to the options
    object, which [chain] hands on as it is. *)
Module Heap.

Definition ref : Type := positive.

Record Internal : Type := {
  query : string;
  parser : option ParserFunction;
  options : ref;
}.

Record heap : Type := {
  optionsObjects : gmap ref GroqBuilderOptions;
  builders : gmap ref Internal;
}.

(** [new GroqBuilder({ query, parser, options })] *)
Definition alloc (h : heap) (internal : Internal) : ref * heap :=
  let l := fresh (dom (builders h)) in
  (l, {| optionsObjects := optionsObjects h;
         builders := <[l := internal]> (builders h) |}).

(** [this.chain(query, parser)] on the builder at [this]. *)
Definition chain (h : heap) (this : ref) (q : string)
    (p : option ParserFunction) : option (ref * heap) :=
  b ← builders h !! this;
  Some (alloc h {| query := query b +:+ q;
                   parser := chainParsers (parser b) p;
                   options := options b |}).

(** [this.internal.options], read through the reference. *)
Definition readOptions (h : heap) (l : ref) : option GroqBuilderOptions :=
  b ← builders h !! l;
  optionsObjects h !! options b.

(** An assignment to the fields of the options object at [o].  No code of
    the builder does it; [GroqBuilderOptions] is a plain object type, not
    frozen, so whoever holds the reference can. *)
Definition writeOptions (h : heap) (o : ref) (v : GroqBuilderOptions)
    : heap :=
  {| optionsObjects := <[o := v]> (optionsObjects h);
     builders := builders h |}.

End Heap.

(** ** Projection maps *)

(** Values that pass none of the tests of [normalizeProjectionField]:
    neither a builder, a string, a boolean, an array nor a parser. *)
Inductive Unsupported : Type :=
  | UUndefined
  | UNull
  | UNumber (z : Z)
  | UBigInt (z : Z)
  | USymbol (description : string)
  | UObject (props : gmap string Value).

(** [typeof value] *)
Definition typeof (u : Unsupported) : string :=
  match u with
  | UUndefined => "undefined"
  | UNull => "object"
  | UNumber _ => "number"
  | UBigInt _ => "bigint"
  | USymbol _ => "symbol"
  | UObject _ => "object"
  end.

(** What an array holds in first place, where the code expects the field
    path: a string, or another primitive.  The code only compares it with
    the key and puts it in a template literal, so a number is kept as its
    string conversion. *)
Inductive ArrayElement : Type :=
  | EString (s : string)
  | EUndefined
  | ENull
  | EBoolean (b : bool)
  | ENumber (text : string)
  | EBigInt (z : Z).

(** [`${element}`] *)
Definition templateString (e : ArrayElement) : string :=
  match e with
  | EString s => s
  | EUndefined => "undefined"
  | ENull => "null"
  | EBoolean b => if b then "true" else "false"
  | ENumber text => text
  | EBigInt z => pretty z
  end.

(** [key === element]: a string is strictly equal to a string only. *)
Definition strictEquals (key : string) (e : ArrayElement) : bool :=
  match e with
  | EString s => bool_decide (key = s)
  | _ => false
  end.

(** A field configuration, by the test of [normalizeProjectionField] it
    passes: [instanceof GroqBuilder], [typeof] string, [typeof] boolean,
    [Array.isArray], [isParser], or none.  [isParser], of
    [./validate-utils], accepts the two forms of [Parser].

    The cast of an array to [[string, Parser]] does nothing when the code
    runs: an array is taken by its first two elements whatever they are,
    so [CfgArray] has the arrays whose first element is any primitive.
    Left out are the arrays whose first element is converted to a string
    by code of its own or not at all (an object, a function, a symbol) and
    those whose second element is no parser, which reach
    [normalizeValidationFunction] outside what is known of it. *)
Inductive ProjectionFieldConfig : Type :=
  | CfgBuilder (value : GroqBuilder)
  | CfgString (value : string)
  | CfgBoolean (value : bool)
  | CfgArray (projectionKey : ArrayElement) (parser : Parser)
  | CfgParser (value : Parser)
  | CfgOther (value : Unsupported).

(** The array the type asks for: a field path and a parser. *)
Abbreviation CfgTuple projectionKey parser :=
  (CfgArray (EString projectionKey) parser).

(** The entries of the projection map, in [Object.keys] order. *)
Abbreviation ProjectionMap := (list (string * ProjectionFieldConfig)).

(** [project] takes the map or a function of the root builder. *)
Inductive ProjectionMapArg : Type :=
  | MapObject (projectionMap : ProjectionMap)
  | MapFactory (f : GroqBuilder → ProjectionMap).

Module Field.
Record NormalizedProjectionField : Type := {
  key : string;
  query : string;
  parser : option ParserFunction;
}.
End Field.
Abbreviation NormalizedProjectionField := Field.NormalizedProjectionField.

(** What [project.ts] imports or reads from [this] and is not part of the
    sources at hand. *)
Class Collaborators : Type := {
  (** [isConditional] of [./conditional-types] *)
  isConditional : string → bool;
  (** the [indentation] getter: [(newLine, space)] *)
  indentation : GroqBuilder → string * string;
  (** the [root] getter *)
  root : GroqBuilder → GroqBuilder;
}.

(** ** Object helpers *)

(** Property assignment on an object kept as its entries in insertion
    order: an existing key keeps its place. *)
Fixpoint set_entry {A} (k : string) (v : A) (l : list (string * A))
    : list (string * A) :=
  match l with
  | [] => [(k, v)]
  | (k', v') :: rest =>
      if decide (k = k') then (k, v) :: rest else (k', v') :: set_entry k v rest
  end.

(** [Object.fromEntries] *)
Definition Object_fromEntries {A} (entries : list (string * A))
    : list (string * A) :=
  foldl (λ acc e, set_entry e.1 e.2 acc) [] entries.

(** The own enumerable properties [Object.assign] copies from a source:
    those of an object, the indices of an array or of a string, none of
    another primitive. *)
Definition ownProperties (source : Value) : gmap string Value :=
  match source with
  | VObj props => props
  | VArr items => list_to_map (imap (λ i v, (pretty i, v)) items)
  | VStr s =>
      list_to_map
        (imap (λ i c, (pretty i, VStr (String c EmptyString)))
              (String.list_ascii_of_string s))
  | _ => ∅
  end.

(** [Object.assign(target, source)] *)
Definition Object_assign (target : gmap string Value) (source : Value)
    : gmap string Value :=
  ownProperties source ∪ target.

(** [array.map(f).filter(notNull)] *)
Definition filter_notNull {A} (l : list (option A)) : list A := omap id l.

(** ** Shape validators *)

(** Modelled from the spec: the field loop of [simpleObjectParser], which
    is not part of the sources at hand.  For each key of the shape with a
    parser the raw value is replaced by the parser's output, a key without
    a parser passes through unchanged, a key absent from the input mapping
    is omitted from the output; a parser's failure propagates unchanged. *)
Fixpoint parseShape (shape : list (string * option ParserFunction))
    (input acc : gmap string Value) : result (gmap string Value) :=
  match shape with
  | [] => Ok acc
  | (k, p) :: rest =>
      match input !! k with
      | None => parseShape rest input acc
      | Some raw =>
          match p with
          | None => parseShape rest input (<[k := raw]> acc)
          | Some f => f raw ≫= λ parsed, parseShape rest input (<[k := parsed]> acc)
          end
      end
  end.

(** Modelled from the spec: [simpleObjectParser] of
    [../validation/simple-validation] is not part of the sources at hand.
    The input is a mapping from key to raw value, parsed field by field as
    [parseShape] does; an input that is not a mapping does not match the
    expected shape, which is a validation error. *)
Definition simpleObjectParser (shape : list (string * option ParserFunction))
    : ParserFunction :=
  λ input,
    match input with
    | VObj props => VObj <$> parseShape shape props ∅
    | _ => Throw (TypeError "Expected an object")
    end.

(** Modelled from the spec: [simpleArrayParser] of
    [../validation/simple-validation] is not part of the sources at hand.
    Given a list, the item parser is applied element-wise and the outputs
    are a list of equal length and order; a failure propagates unchanged. *)
Definition simpleArrayParser (itemParser : ParserFunction) : ParserFunction :=
  λ input,
    match input with
    | VArr items => VArr <$> mapM itemParser items
    | _ => Throw (TypeError "Expected an array")
    end.

(** Modelled from the spec: [objectValidation.object] of
    [../validation/object-shape], which the earlier revision of
    [project.ts] calls, is not part of the sources at hand.  The spec has
    one object-shape validator: the input is a mapping from key to raw
    value; for each key with a parser the raw value is replaced by the
    parser's output, a key without a parser passes through unchanged, a
    key absent from the mapping is omitted; failures propagate unchanged. *)
Module objectValidation.
End objectValidation.

(** Modelled from the spec: [arrayValidation.array] of
    [../validation/array-shape], which the earlier revision of
    [project.ts] calls, is not part of the sources at hand.  The spec has
    one array-shape validator: given a list, the item parser is applied
    element-wise and the outputs are a list of equal length and order;
    failures propagate unchanged. *)
Module arrayValidation.
End arrayValidation.

(** ** The field normalizer

    [normalizeProjectionField] reads the same in both revisions of
    [project.ts]. *)
Section Normalizer.
Context `{Collaborators}.

(** The template literal of a renamed field: the key in quotes, a colon,
    the expression. *)
Definition renamed (key expr : string) : string :=
  dq +:+ key +:+ dq +:+ ": " +:+ expr.

Definition normalizeProjectionField (key : string)
    (fieldConfig : ProjectionFieldConfig)
    : result (option NormalizedProjectionField) :=
  match fieldConfig with
  | CfgBuilder value =>
      let q :=
        if isConditional key then query value
        else if decide (key = query value) then key
        else renamed key (query value) in
      Ok (Some {| Field.key := key; Field.query := q;
                  Field.parser := parser value |})
  | CfgString value =>
      let q := if decide (key = value) then key else renamed key value in
      Ok (Some {| Field.key := key; Field.query := q; Field.parser := None |})
  | CfgBoolean value =>
      if value then
        Ok (Some {| Field.key := key; Field.query := key;
                    Field.parser := None |})
      else Ok None
  | CfgArray projectionKey p =>
      let q :=
        if strictEquals key projectionKey then key
        else renamed key (templateString projectionKey) in
      Ok (Some {| Field.key := key; Field.query := q;
                  Field.parser := normalizeValidationFunction p |})
  | CfgParser value =>
      Ok (Some {| Field.key := key; Field.query := key;
                  Field.parser := normalizeValidationFunction value |})
  | CfgOther value =>
      Throw (Error ("Unexpected value for projection key " +:+ dq +:+ key
                    +:+ dq +:+ ": " +:+ dq +:+ typeof value +:+ dq))
  end.

(** [keys.map(key => normalizeProjectionField(key, projectionMap[key]))
         .filter(notNull)]: the first entry that throws ends the loop. *)
Definition normalizeFields (projectionMap : ProjectionMap)
    : result (list NormalizedProjectionField) :=
  filter_notNull <$>
    mapM (λ e, normalizeProjectionField e.1 e.2) projectionMap.

(** The map [project] works on. *)
Definition resolveMap (this : GroqBuilder) (projectionMapArg : ProjectionMapArg)
    : ProjectionMap :=
  match projectionMapArg with
  | MapFactory f => f (root this)
  | MapObject projectionMap => projectionMap
  end.

(** The brace block of [project]. *)
Definition braceBlock (this : GroqBuilder) (queries : list string) : string :=
  let '(newLine, space) := indentation this in
  " {" +:+ newLine +:+ space +:+ join ("," +:+ newLine +:+ space) queries
       +:+ newLine +:+ "}".

End Normalizer.

(** ** The projection parser and [project], with the strictness check *)
Module New.
Section New.
Context `{Collaborators}.

(** [fields.filter((f) => !isConditional(f.key))] *)
Definition normalFields (fields : list NormalizedProjectionField)
    : list NormalizedProjectionField :=
  filter (λ f, ¬ isConditional (Field.key f)) fields.

(** [fields.filter((f) => isConditional(f.key))] *)
Definition conditionalFields (fields : list NormalizedProjectionField)
    : list NormalizedProjectionField :=
  filter (λ f, isConditional (Field.key f)) fields.

Definition objectShape (fields : list NormalizedProjectionField)
    : list (string * option ParserFunction) :=
  Object_fromEntries
    (map (λ f, (Field.key f, Field.parser f)) (normalFields fields)).

Definition objectParser (fields : list NormalizedProjectionField)
    : ParserFunction :=
  simpleObjectParser (objectShape fields).

(** [conditionalFields.map((f) => f.parser).filter(notNull)] *)
Definition conditionalParsers (fields : list NormalizedProjectionField)
    : list ParserFunction :=
  filter_notNull (map Field.parser (conditionalFields fields)).

(** The loop of [combinedParser]:
    [for (const p of combinedParsers) Object.assign(result, p(input))]. *)
Fixpoint runParsers (combinedParsers : list ParserFunction) (input : Value)
    (acc : gmap string Value) : result (gmap string Value) :=
  match combinedParsers with
  | [] => Ok acc
  | p :: rest =>
      p input ≫= λ parsed, runParsers rest input (Object_assign acc parsed)
  end.

Definition combinedParser (fields : list NormalizedProjectionField)
    : ParserFunction :=
  λ input,
    let combinedParsers := objectParser fields :: conditionalParsers fields in
    VObj <$> runParsers combinedParsers input ∅.

(** [fields.some((f) => f.parser)] *)
Definition someParser (fields : list NormalizedProjectionField) : bool :=
  existsb (λ f, bool_decide (is_Some (Field.parser f))) fields.

Definition createProjectionParser (fields : list NormalizedProjectionField)
    : option ParserFunction :=
  if someParser fields then
    let arrayParser := simpleArrayParser (combinedParser fields) in
    Some (λ input,
      if Array_isArray input then arrayParser input
      else combinedParser fields input)
  else None.

(** [fields.filter((f) => !f.parser)] *)
Definition invalidFields (fields : list NormalizedProjectionField)
    : list NormalizedProjectionField :=
  filter (λ f, Field.parser f = None) fields.

(** The message of the strictness error; the array of quoted keys is
    stringified by the template literal, that is, joined with commas. *)
Definition missingValidationMessage
    (invalid : list NormalizedProjectionField) : string :=
  "[groq-builder] Because 'validationRequired' is enabled, "
  +:+ "every field must have validation (like `q.string()`), "
  +:+ "but the following fields are missing it: "
  +:+ join "," (map (λ f, dq +:+ Field.key f +:+ dq) invalid).

Definition project (this : GroqBuilder) (projectionMapArg : ProjectionMapArg)
    : result GroqBuilder :=
  let projectionMap := resolveMap this projectionMapArg in
  normalizeFields projectionMap ≫= λ fields,
  (if validationRequired (options this) then
     match invalidFields fields with
     | [] => Ok ()
     | invalid => Throw (TypeError (missingValidationMessage invalid))
     end
   else Ok ()) ≫= λ _,
  let queries := map Field.query fields in
  let newQuery := braceBlock this queries in
  let projectionParser := createProjectionParser fields in
  Ok (chain this newQuery projectionParser).

End New.
End New.

(** ** The earlier revision of [project.ts]

    It validates shapes with [objectValidation.object] and
    [arrayValidation.array], of [../validation/object-shape] and
    [../validation/array-shape]; neither is part of the sources at hand, so
    both are taken as parameters. *)
Module Old.
Section Old.
Context `{Collaborators}.
Variable objectValidation_object :
  list (string * option ParserFunction) → ParserFunction.
Variable arrayValidation_array : ParserFunction → ParserFunction.

Definition objectParser (fields : list NormalizedProjectionField)
    : ParserFunction :=
  let normalFields := filter (λ f, ¬ isConditional (Field.key f)) fields in
  let objectShape :=
    Object_fromEntries (map (λ f, (Field.key f, Field.parser f)) normalFields) in
  objectValidation_object objectShape.

Definition conditionalParsers (fields : list NormalizedProjectionField)
    : list ParserFunction :=
  let conditionalFields := filter (λ f, isConditional (Field.key f)) fields in
  filter_notNull (map Field.parser conditionalFields).

Fixpoint runParsers (combinedParsers : list ParserFunction) (input : Value)
    (acc : gmap string Value) : result (gmap string Value) :=
  match combinedParsers with
  | [] => Ok acc
  | p :: rest =>
      p input ≫= λ parsed, runParsers rest input (Object_assign acc parsed)
  end.

Definition combinedParser (fields : list NormalizedProjectionField)
    : ParserFunction :=
  λ input,
    let combinedParsers := objectParser fields :: conditionalParsers fields in
    VObj <$> runParsers combinedParsers input ∅.

Definition createProjectionParser (fields : list NormalizedProjectionField)
    : option ParserFunction :=
  if existsb (λ f, bool_decide (is_Some (Field.parser f))) fields then
    let arrayParser := arrayValidation_array (combinedParser fields) in
    Some (λ input,
      if Array_isArray input then arrayParser input
      else combinedParser fields input)
  else None.

Definition project (this : GroqBuilder) (projectionMapArg : ProjectionMapArg)
    : result GroqBuilder :=
  let projectionMap := resolveMap this projectionMapArg in
  normalizeFields projectionMap ≫= λ fields,
  let queries := map Field.query fields in
  let newQuery := braceBlock this queries in
  let projectionParser := createProjectionParser fields in
  Ok (chain this newQuery projectionParser).

End Old.
End Old.

(** ** [validation]: the validators of four modules in one object

    The validator objects themselves are defined in other modules; they
    are parameters here, as maps from a validator's name to the validator. *)
Module Validation.
Section Validation.
Context {V : Type}.

(** An object literal made of spreads, [{ ...a, ...b }]: the properties
    are copied source after source, a later source overriding. *)
Definition spread (sources : list (gmap string V)) : gmap string V :=
  foldl (λ acc source, source ∪ acc) ∅ sources.

Variables primitiveValidation sanityValidation : gmap string V.
Variables objectValidation arrayValidation : gmap string V.

Definition validation : gmap string V :=
  spread [primitiveValidation; sanityValidation;
          objectValidation; arrayValidation].

End Validation.
End Validation.

(** ** Sample collaborators, for running the compiler on concrete maps *)
Module Sample.

(** Conditional keys carry a fixed prefix. *)
Definition prefixedKey (key : string) : bool :=
  String.prefix "[Conditional] " key.

(** No indent: fields are separated by single spaces. *)
Definition flatIndentation (this : GroqBuilder) : string * string :=
  if decide (indent (options this) = EmptyString) then (" ", EmptyString)
  else (String (Ascii.ascii_of_nat 10) EmptyString, indent (options this)).

Definition emptyRoot (this : GroqBuilder) : GroqBuilder :=
  {| query := EmptyString; parser := None; options := options this |}.

#[export] Instance collaborators : Collaborators :=
  {| isConditional := prefixedKey;
     indentation := flatIndentation;
     root := emptyRoot |}.

Definition lax : GroqBuilderOptions :=
  {| indent := EmptyString; validationRequired := false |}.
Definition strict : GroqBuilderOptions :=
  {| indent := EmptyString; validationRequired := true |}.

(** [*[_type == "variant"]] with no parser. *)
Definition qVariants (o : GroqBuilderOptions) : GroqBuilder :=
  {| query := "*[_type == " +:+ dq +:+ "variant" +:+ dq +:+ "]";
     parser := None; options := o |}.

(** A leaf validator: accepts strings, rejects the rest. *)
Definition isString : ParserFunction :=
  λ input,
    match input with
    | VStr s => Ok (VStr s)
    | _ => Throw (TypeError "Expected a string")
    end.

(** A transforming parser: formats a number as a price. *)
Definition asPrice : ParserFunction :=
  λ input,
    match input with
    | VNum z => Ok (VStr ("$" +:+ pretty z))
    | _ => Throw (TypeError "Expected a number")
    end.

(** A conditional branch's parser: whatever the input, the item is on
    sale, and is named so. *)
Definition onSale : ParserFunction :=
  λ input, Ok (VObj (<["badge" := VStr "SALE"]> {["name" := VStr "ON SALE"]})).

(** Another conditional branch's parser, with a badge of its own. *)
Definition onClearance : ParserFunction :=
  λ input, Ok (VObj {["badge" := VStr "CLEARANCE"]}).

(** The fields of [{ name: true, price: asPrice }]. *)
Definition pricedFields : list NormalizedProjectionField :=
  [ {| Field.key := "name"; Field.query := "name"; Field.parser := None |};
    {| Field.key := "price"; Field.query := "price";
       Field.parser := Some asPrice |} ].

(** The fields of a map with one validated field and two conditional
    branches. *)
Definition saleFields : list NormalizedProjectionField :=
  [ {| Field.key := "name"; Field.query := "name";
       Field.parser := Some isString |};
    {| Field.key := "[Conditional] sale"; Field.query := "sale => {...}";
       Field.parser := Some onSale |};
    {| Field.key := "[Conditional] clearance";
       Field.query := "clearance => {...}";
       Field.parser := Some onClearance |} ].

(** What [createProjectionParser] returns for fields with a parser. *)
Definition projectionParser (fields : list NormalizedProjectionField)
    : ParserFunction :=
  λ input,
    if Array_isArray input
    then simpleArrayParser (New.combinedParser fields) input
    else New.combinedParser fields input.

Definition variantA : Value :=
  VObj (<["name" := VStr "A"]> {["price" := VNum 10]}).
Definition variantB : Value :=
  VObj (<["name" := VStr "B"]> {["price" := VNum 25]}).

(** [{ NAME: "name", SLUG: "slug.current", msrp: isString }] *)
Definition renamingMap : ProjectionMap :=
  [ ("NAME", CfgString "name"); ("SLUG", CfgString "slug.current");
    ("msrp", CfgParser (ParserFn isString)) ].

(** [{ name: true, hidden: false, NAME: "name" }] *)
Definition plainMap : ProjectionMap :=
  [ ("name", CfgBoolean true); ("hidden", CfgBoolean false);
    ("NAME", CfgString "name") ].

(** A conditional branch's parser that rejects every input. *)
Definition rejectAll : ParserFunction :=
  λ input, Throw (TypeError "Expected a sale").

(** The fields of a map whose first conditional branch always fails. *)
Definition brokenFields : list NormalizedProjectionField :=
  [ {| Field.key := "name"; Field.query := "name";
       Field.parser := Some isString |};
    {| Field.key := "[Conditional] sale"; Field.query := "sale => {...}";
       Field.parser := Some rejectAll |};
    {| Field.key := "[Conditional] clearance";
       Field.query := "clearance => {...}";
       Field.parser := Some onClearance |} ].


(** A heap with one options object and the root builder [*] that holds
    it. *)
Definition star : Heap.Internal :=
  {| Heap.query := "*"; Heap.parser := None; Heap.options := 1%positive |}.

Definition heap : Heap.heap :=
  {| Heap.optionsObjects := {[1%positive := lax]};
     Heap.builders := {[1%positive := star]} |}.

End Sample.

(** ** Notions the properties are stated with *)

(** Assigning a list of parser outputs in order, as the loop of
    [combinedParser] does. *)
Definition assignAll (acc : gmap string Value) (outs : list Value)
    : gmap string Value :=
  foldl Object_assign acc outs.

(** No output after position [j] has the key [k]. *)
Definition lastWith (k : string) (j : nat) (outs : list Value) : Prop :=
  ∀ j' o', j < j' → outs !! j' = Some o' → ownProperties o' !! k = None.

(** The one configuration that produces no field: the boolean [false]. *)
Definition excluded (c : ProjectionFieldConfig) : bool :=
  match c with CfgBoolean false => true | _ => false end.

(** The entries of a map that are not excluded, in the map's order. *)
Definition included (m : ProjectionMap) : ProjectionMap :=
  filter (λ e, excluded e.2 = false) m.

(** Parsers that behave alike on every raw input. *)
Definition parser_equiv (a b : option ParserFunction) : Prop :=
  match a, b with
  | None, None => True
  | Some f, Some g => ∀ input, f input = g input
  | _, _ => False
  end.



(** The configurations the normalizer accepts. *)
Definition supported (c : ProjectionFieldConfig) : bool :=
  match c with CfgOther _ => false | _ => true end.

(** The message of the normalizer's error. *)
Definition unexpectedValueMessage (key : string) (value : Unsupported)
    : string :=
  "Unexpected value for projection key " +:+ dq +:+ key +:+ dq +:+ ": "
  +:+ dq +:+ typeof value +:+ dq.

(** The field-path expression a configuration carries, if it carries one:
    a nested query, a naked path, the path of a pair. *)
Definition expression (c : ProjectionFieldConfig) : option string :=
  match c with
  | CfgBuilder value => Some (query value)
  | CfgString value => Some value
  | CfgTuple projectionKey _ => Some projectionKey
  | _ => None
  end.

(** [c] is a nested builder. *)
Definition isBuilder (c : ProjectionFieldConfig) : bool :=
  match c with CfgBuilder _ => true | _ => false end.

(** A conditional field that has no parser. *)
Definition silentConditional `{Collaborators}
    (f : NormalizedProjectionField) : bool :=
  isConditional (Field.key f) && bool_decide (Field.parser f = None).


(** * Properties *)

(** ** Strings and the result monad *)

Lemma string_app_cons (ch : Ascii.ascii) (a b : string) :
  String ch a +:+ b = String ch (a +:+ b).
Proof. reflexivity. Qed.

Lemma string_app_assoc (a b c : string) : (a +:+ b) +:+ c = a +:+ b +:+ c.
Proof.
  induction a as [|ch a IH]; [done |].
  by rewrite !string_app_cons, IH.
Qed.

Lemma string_app_empty_r (a : string) : a +:+ EmptyString = a.
Proof.
  induction a as [|ch a IH]; [done |].
  by rewrite string_app_cons, IH.
Qed.

Lemma includes_app_l (s t sub : string) :
  includes t sub → includes (s +:+ t) sub.
Proof.
  intros (pre & post & ->). exists (s +:+ pre), post.
  by rewrite string_app_assoc.
Qed.

Lemma includes_app_r (s t sub : string) :
  includes s sub → includes (s +:+ t) sub.
Proof.
  intros (pre & post & ->). exists pre, (post +:+ t).
  by rewrite !string_app_assoc.
Qed.

Lemma includes_refl (s : string) : includes s s.
Proof. exists EmptyString, EmptyString. by rewrite string_app_empty_r. Qed.

(** Every element of a joined array shows in the joined string. *)
Lemma includes_join (sep x : string) (l : list string) :
  x ∈ l → includes (join sep l) x.
Proof.
  induction l as [|y l IH]; [by intros ?%elem_of_nil |].
  intros [->|Hin]%elem_of_cons.
  - destruct l; simpl; [apply includes_refl |].
    apply includes_app_r, includes_refl.
  - destruct l as [|z l]; [by apply elem_of_nil in Hin |].
    change (join sep (y :: z :: l)) with (y +:+ sep +:+ join sep (z :: l)).
    by apply includes_app_l, includes_app_l, IH.
Qed.

Lemma bind_Ok {A B} (r : result A) (f : A → result B) (b : B) :
  r ≫= f = Ok b ↔ ∃ a, r = Ok a ∧ f a = Ok b.
Proof.
  destruct r as [a|e]; simpl; split.
  - intros Hf. by exists a.
  - by intros (a' & [= <-] & Hf).
  - done.
  - by intros (a' & ? & _).
Qed.

Lemma fmap_Ok {A B} (r : result A) (f : A → B) (b : B) :
  f <$> r = Ok b ↔ ∃ a, r = Ok a ∧ b = f a.
Proof.
  destruct r as [a|e]; simpl; split.
  - intros [= <-]. by exists a.
  - by intros (a' & [= <-] & ->).
  - done.
  - by intros (a' & ? & _).
Qed.

(** [mapM] in the result monad: success gives the outputs one for one. *)
Lemma mapM_Ok {A B} (f : A → result B) (l : list A) (k : list B) :
  mapM f l = Ok k ↔ Forall2 (λ x y, f x = Ok y) l k.
Proof.
  revert k. induction l as [|x l IH]; intros k; simpl.
  - split; [intros [= <-]; constructor | by intros ->%Forall2_nil_inv_l].
  - split.
    + intros (y & Hy & (k' & Hk' & [= <-])%bind_Ok)%bind_Ok.
      constructor; [done | by apply IH].
    + intros (y & k' & Hy & Hk' & ->)%Forall2_cons_inv_l.
      apply bind_Ok. exists y. split; [done |].
      apply bind_Ok. exists k'. split; [by apply IH | done].
Qed.

Lemma mapM_ext_result {A B} (f g : A → result B) (l : list A) :
  (∀ x, f x = g x) → mapM f l = mapM g l.
Proof. intros Hfg. induction l as [|x l IH]; simpl; [done | by rewrite Hfg, IH]. Qed.

(** ** The builder core *)

(** C7, as amended.  [n.chain(f, p)] allocates a new node whose query is
    [n.query + f] and whose parser is the composition of [n.parser] with
    [p]; the new node lives at a reference that was free, so it is not the
    receiver; the call writes to nothing that existed: every builder, the
    receiver included, and every options object is what it was.  The new
    node's options are the receiver's options object itself: both hold the
    same reference, read the same options, and see the same later write
    to that object. *)
Theorem chain_fresh_node_same_options (h : Heap.heap) (this : Heap.ref)
    (n : Heap.Internal) (f : string) (p : option ParserFunction) :
  Heap.builders h !! this = Some n →
  ∃ l h' n',
    Heap.chain h this f p = Some (l, h')
    ∧ Heap.builders h' !! l = Some n'
    ∧ Heap.query n' = Heap.query n +:+ f
    ∧ Heap.parser n' = chainParsers (Heap.parser n) p
    ∧ Heap.builders h !! l = None
    ∧ l ≠ this
    ∧ Heap.builders h' !! this = Some n
    ∧ (∀ l', l' ≠ l → Heap.builders h' !! l' = Heap.builders h !! l')
    ∧ Heap.optionsObjects h' = Heap.optionsObjects h
    ∧ Heap.options n' = Heap.options n
    ∧ Heap.readOptions h' this = Heap.readOptions h this
    ∧ Heap.readOptions h' l = Heap.readOptions h this
    ∧ ∀ v, Heap.readOptions (Heap.writeOptions h' (Heap.options n) v) l
           = Heap.readOptions (Heap.writeOptions h' (Heap.options n) v) this.
Proof.
  intros Hthis.
  set (l := fresh (dom (Heap.builders h))).
  assert (Hfresh : Heap.builders h !! l = None).
  { apply not_elem_of_dom, is_fresh. }
  assert (Hne : l ≠ this) by (intros Heq; rewrite Heq in Hfresh; congruence).
  exists l,
    {| Heap.optionsObjects := Heap.optionsObjects h;
       Heap.builders :=
         <[l := {| Heap.query := Heap.query n +:+ f;
                   Heap.parser := chainParsers (Heap.parser n) p;
                   Heap.options := Heap.options n |}]> (Heap.builders h) |},
    {| Heap.query := Heap.query n +:+ f;
       Heap.parser := chainParsers (Heap.parser n) p;
       Heap.options := Heap.options n |}.
  unfold Heap.chain, Heap.alloc. rewrite Hthis. simpl. fold l.
  split_and!; try done.
  - apply lookup_insert_eq.
  - by rewrite lookup_insert_ne.
  - intros l' Hl'. by rewrite lookup_insert_ne.
  - unfold Heap.readOptions. simpl.
    by rewrite lookup_insert_ne, Hthis.
  - unfold Heap.readOptions. simpl.
    by rewrite lookup_insert_eq, Hthis.
  - intros v. unfold Heap.readOptions, Heap.writeOptions. simpl.
    rewrite lookup_insert_eq, lookup_insert_ne by done.
    by rewrite Hthis.
Qed.

(** ** The field normalizer *)
Section NormalizerFacts.
Context `{Collaborators}.

(** C1. A nested builder normalizes to a field that keeps the key and the
    nested node's parser, and whose fragment is the nested query verbatim
    when the key is conditional, the bare key when the nested query equals
    the key, and the key in quotes, a colon and the nested query otherwise. *)
Theorem normalize_nested_builder (key : string) (value : GroqBuilder) :
  ∃ f,
    normalizeProjectionField key (CfgBuilder value) = Ok (Some f)
    ∧ Field.key f = key
    ∧ Field.parser f = parser value
    ∧ (isConditional key = true → Field.query f = query value)
    ∧ (isConditional key = false → query value = key → Field.query f = key)
    ∧ (isConditional key = false → query value ≠ key →
       Field.query f = dq +:+ key +:+ dq +:+ ": " +:+ query value).
Proof.
  eexists. split; [reflexivity |]. simpl.
  split_and!; try done.
  - by intros ->.
  - intros -> Heq. by rewrite decide_True.
  - intros -> Hne. by rewrite decide_False.
Qed.

(** C8, as amended.  A value that passes none of the five tests of the
    normalizer (builder, string, boolean, array, parser) makes it throw an
    error whose message contains the key and the [typeof] of the value;
    the call returns neither a field nor the exclusion marker. *)
Theorem normalize_unsupported_throws (key : string) (value : Unsupported) :
  ∃ msg,
    normalizeProjectionField key (CfgOther value) = Throw (Error msg)
    ∧ includes msg key
    ∧ includes msg (typeof value)
    ∧ ∀ r, normalizeProjectionField key (CfgOther value) ≠ Ok r.
Proof.
  eexists. split; [reflexivity |]. split_and!.
  - apply includes_app_l, includes_app_l, includes_app_r, includes_refl.
  - do 6 apply includes_app_l. apply includes_app_r, includes_refl.
  - done.
Qed.

End NormalizerFacts.

(** ** The combined parser *)

Lemma assignAll_snoc (acc : gmap string Value) (outs : list Value) (o : Value) :
  assignAll acc (outs ++ [o]) = Object_assign (assignAll acc outs) o.
Proof. unfold assignAll. by rewrite foldl_app. Qed.

(** Last applied wins: the value of a key in the merged result is the one
    of the last output that has the key. *)
Lemma assignAll_lookup_last (acc : gmap string Value) (outs : list Value)
    (j : nat) (oj : Value) (k : string) (v : Value) :
  outs !! j = Some oj →
  ownProperties oj !! k = Some v →
  lastWith k j outs →
  assignAll acc outs !! k = Some v.
Proof.
  revert j oj. induction outs as [|o outs IH] using rev_ind; intros j oj Hj Hk Hlast.
  - by rewrite lookup_nil in Hj.
  - rewrite assignAll_snoc. unfold Object_assign.
    destruct (decide (j = length outs)) as [->|Hne].
    + rewrite list_lookup_middle in Hj by done. injection Hj as ->.
      by apply lookup_union_Some_l.
    + assert (Hlt : j < length outs).
      { apply lookup_lt_Some in Hj. rewrite length_app in Hj. simpl in Hj. lia. }
      rewrite lookup_app_l in Hj by done.
      rewrite lookup_union_r.
      * apply (IH j oj); [done | done |].
        intros j' o' Hjj' Ho'. apply (Hlast j' o' Hjj').
        rewrite lookup_app_l; [done | by eapply lookup_lt_Some].
      * apply (Hlast (length outs) o Hlt). by apply list_lookup_middle.
Qed.

(** A key that no output has keeps the value it had. *)
Lemma assignAll_lookup_none (acc : gmap string Value) (outs : list Value)
    (k : string) :
  Forall (λ o, ownProperties o !! k = None) outs →
  assignAll acc outs !! k = acc !! k.
Proof.
  induction outs as [|o outs IH] using rev_ind; [done |].
  intros [Houts Ho]%Forall_app. rewrite Forall_singleton in Ho.
  rewrite assignAll_snoc. unfold Object_assign.
  rewrite lookup_union_r by done. by apply IH.
Qed.

Section ParserFacts.
Context `{Collaborators}.

(** The loop of [combinedParser] runs every parser on the same input, in
    order, and assigns the outputs in that order. *)
Lemma runParsers_mapM (ps : list ParserFunction) (input : Value)
    (acc : gmap string Value) :
  New.runParsers ps input acc =
    mapM (λ p, p input) ps ≫= λ outs, Ok (assignAll acc outs).
Proof.
  revert acc. induction ps as [|p ps IH]; intros acc; simpl; [done |].
  destruct (p input) as [parsed|e]; simpl; [| done].
  rewrite IH. by destruct (mapM (λ p0, p0 input) ps).
Qed.

Lemma combinedParser_unfold (fields : list NormalizedProjectionField)
    (input : Value) :
  New.combinedParser fields input =
    New.objectParser fields input ≫= λ obj,
    mapM (λ p, p input) (New.conditionalParsers fields) ≫= λ outs,
    Ok (VObj (assignAll (Object_assign ∅ obj) outs)).
Proof.
  unfold New.combinedParser. simpl.
  destruct (New.objectParser fields input) as [obj|e]; simpl; [| done].
  rewrite runParsers_mapM.
  by destruct (mapM (λ p, p input) (New.conditionalParsers fields)).
Qed.

Lemma someParser_true (fields : list NormalizedProjectionField) :
  New.someParser fields = true ↔
  Exists (λ f, is_Some (Field.parser f)) fields.
Proof.
  unfold New.someParser. rewrite existsb_exists, Exists_exists.
  split; intros (f & Hin & Hf); exists f.
  - split; [by apply list_elem_of_In |]. by apply bool_decide_eq_true in Hf.
  - split; [by apply list_elem_of_In |]. by apply bool_decide_eq_true.
Qed.

Lemma someParser_false (fields : list NormalizedProjectionField) :
  New.someParser fields = false ↔
  Forall (λ f, Field.parser f = None) fields.
Proof.
  rewrite <-not_true_iff_false, someParser_true, <-Forall_Exists_neg.
  apply Forall_proper; [| done]. intros f.
  by rewrite eq_None_not_Some.
Qed.

Lemma createProjectionParser_Some (fields : list NormalizedProjectionField)
    (P : ParserFunction) :
  New.createProjectionParser fields = Some P →
  ∀ input,
    P input =
      if Array_isArray input
      then simpleArrayParser (New.combinedParser fields) input
      else New.combinedParser fields input.
Proof.
  unfold New.createProjectionParser.
  destruct (New.someParser fields); [| done]. by intros [= <-].
Qed.

(** C2. When some field has a parser the combined parser exists; on a value
    that is not an array it is the object logic applied to the value, and on
    an array it is the object logic applied to each element: the output has
    the length of the input and its [i]-th element is the object logic's
    output on the [i]-th input. *)
Theorem projection_parser_array_or_object
    (fields : list NormalizedProjectionField) :
  Exists (λ f, is_Some (Field.parser f)) fields →
  ∃ P,
    New.createProjectionParser fields = Some P
    ∧ (∀ o, Array_isArray o = false → P o = New.combinedParser fields o)
    ∧ (∀ items,
         P (VArr items) = VArr <$> mapM (New.combinedParser fields) items)
    ∧ (∀ items outs,
         P (VArr items) = Ok outs ↔
         ∃ l, outs = VArr l
              ∧ Forall2 (λ o o', New.combinedParser fields o = Ok o') items l)
    ∧ (∀ items l,
         P (VArr items) = Ok (VArr l) →
         length l = length items
         ∧ ∀ i o, items !! i = Some o →
             ∃ o', l !! i = Some o' ∧ New.combinedParser fields o = Ok o').
Proof.
  intros Hsome%someParser_true.
  unfold New.createProjectionParser. rewrite Hsome.
  eexists. split; [reflexivity |].
  assert (Harr : ∀ items outs,
    VArr <$> mapM (New.combinedParser fields) items = Ok outs ↔
    ∃ l, outs = VArr l
         ∧ Forall2 (λ o o', New.combinedParser fields o = Ok o') items l).
  { intros items outs. rewrite fmap_Ok.
    split; intros (l & Hl1 & Hl2); exists l; split; try done;
      by apply mapM_Ok. }
  split_and!.
  - by intros o ->.
  - done.
  - intros items outs. simpl. apply Harr.
  - intros items l Hl. simpl in Hl.
    apply Harr in Hl as (l' & [= <-] & Hall).
    split; [symmetry; by eapply Forall2_length |].
    intros i o Hi.
    destruct (Forall2_lookup_l _ _ _ _ _ Hall Hi) as (o' & ? & ?). eauto.
Qed.

(** C3. On a raw input that is not an array, the combined parser runs the
    object-shape parser on the input, then every conditional field's parser
    on that same input, in the order of the conditional fields, and assigns
    each output over the accumulated result; when the outputs of two
    conditional fields share a key and no later output has it, the result
    holds the value of the later one. *)
Theorem combined_parser_merge_order
    (fields : list NormalizedProjectionField) (P : ParserFunction) :
  New.createProjectionParser fields = Some P →
  (∀ input, Array_isArray input = false →
     P input =
       simpleObjectParser
         (Object_fromEntries
            (map (λ f, (Field.key f, Field.parser f))
               (filter (λ f, ¬ isConditional (Field.key f)) fields)))
         input ≫= λ obj,
       mapM (λ p, p input)
            (filter_notNull
               (map Field.parser
                  (filter (λ f, isConditional (Field.key f)) fields))) ≫= λ outs,
       Ok (VObj (foldl Object_assign (Object_assign ∅ obj) outs)))
  ∧ (∀ input obj outs, Array_isArray input = false →
       New.objectParser fields input = Ok obj →
       mapM (λ p, p input) (New.conditionalParsers fields) = Ok outs →
       ∃ r, P input = Ok (VObj r)
         ∧ ∀ i j oi oj k vi vj,
             i < j →
             outs !! i = Some oi → ownProperties oi !! k = Some vi →
             outs !! j = Some oj → ownProperties oj !! k = Some vj →
             lastWith k j outs →
             r !! k = Some vj).
Proof.
  intros HP. pose proof (createProjectionParser_Some _ _ HP) as HPeq.
  split.
  - intros input Hin. rewrite HPeq, Hin. apply combinedParser_unfold.
  - intros input obj outs Hin Hobj Houts.
    exists (assignAll (Object_assign ∅ obj) outs). split.
    + rewrite HPeq, Hin, combinedParser_unfold, Hobj. simpl.
      by rewrite Houts.
    + intros i j oi oj k vi vj _ _ _ Hj Hk Hlast.
      by eapply assignAll_lookup_last.
Qed.

(** C9. A key that the object-shape parser produced for an ordinary field
    and that a conditional field's output also has ends with the conditional
    output's value: the last conditional output that has the key replaces
    the ordinary field's parsed value. *)
Theorem conditional_output_replaces_ordinary_field
    (fields : list NormalizedProjectionField) (P : ParserFunction)
    (input : Value) (obj : gmap string Value) (outs : list Value)
    (j : nat) (oj : Value) (k : string) (v0 v : Value) :
  New.createProjectionParser fields = Some P →
  Array_isArray input = false →
  New.objectParser fields input = Ok (VObj obj) →
  obj !! k = Some v0 →
  mapM (λ p, p input) (New.conditionalParsers fields) = Ok outs →
  outs !! j = Some oj →
  ownProperties oj !! k = Some v →
  lastWith k j outs →
  ∃ r, P input = Ok (VObj r) ∧ r !! k = Some v.
Proof.
  intros HP Hin Hobj _ Houts Hj Hk Hlast.
  exists (assignAll (Object_assign ∅ (VObj obj)) outs). split.
  - rewrite (createProjectionParser_Some _ _ HP), Hin.
    rewrite combinedParser_unfold, Hobj. simpl. by rewrite Houts.
  - by eapply assignAll_lookup_last.
Qed.

End ParserFacts.

(** ** The projection compiler *)

Section CompilerFacts.
Context `{Collaborators}.

Lemma normalize_None_iff (key : string) (c : ProjectionFieldConfig) :
  normalizeProjectionField key c = Ok None ↔ c = CfgBoolean false.
Proof.
  split; [| by intros ->].
  destruct c as [b|s|[]|pk p|p|u]; simpl; try done.
Qed.

Lemma normalize_Some_included (key : string) (c : ProjectionFieldConfig)
    (f : NormalizedProjectionField) :
  normalizeProjectionField key c = Ok (Some f) →
  excluded c = false ∧ Field.key f = key.
Proof.
  destruct c as [b|s|[]|pk p|p|u]; simpl; try done; by intros [= <-].
Qed.

(** The normalized fields are the normalized entries that are not excluded,
    one for one and in the map's order. *)
Lemma normalizeFields_Ok (m : ProjectionMap)
    (fields : list NormalizedProjectionField) :
  normalizeFields m = Ok fields →
  Forall2 (λ e f, normalizeProjectionField e.1 e.2 = Ok (Some f))
          (included m) fields.
Proof.
  unfold normalizeFields. intros (os & Hos & ->)%fmap_Ok.
  apply mapM_Ok in Hos. unfold included, filter_notNull.
  induction Hos as [|e o m os He _ IH]; [constructor |].
  destruct o as [f|].
  - destruct (normalize_Some_included _ _ _ He) as [Hex _].
    rewrite filter_cons_True by done. by constructor.
  - apply normalize_None_iff in He.
    rewrite filter_cons_False; [done |]. by rewrite He.
Qed.

Lemma invalidFields_nil (fields : list NormalizedProjectionField) :
  New.invalidFields fields = [] ↔
  Forall (λ f, is_Some (Field.parser f)) fields.
Proof.
  unfold New.invalidFields. induction fields as [|f fields IH]; [done |].
  rewrite Forall_cons, <-IH.
  destruct (Field.parser f) as [p|] eqn:Hp.
  - rewrite filter_cons_False by (by rewrite Hp).
    split; [by split | by intros [_ ?]].
  - rewrite filter_cons_True by done. split; [done |].
    by intros [[? [=]] _].
Qed.

(** What a successful [project] returns. *)
Lemma project_Ok (this : GroqBuilder) (arg : ProjectionMapArg)
    (node : GroqBuilder) :
  New.project this arg = Ok node ↔
  ∃ fields,
    normalizeFields (resolveMap this arg) = Ok fields
    ∧ (validationRequired (options this) = true →
       New.invalidFields fields = [])
    ∧ node = chain this (braceBlock this (map Field.query fields))
                   (New.createProjectionParser fields).
Proof.
  unfold New.project. rewrite bind_Ok. split.
  - intros (fields & Hf & Hrest). exists fields. split; [done |].
    destruct (validationRequired (options this)).
    + destruct (New.invalidFields fields); [| done].
      simpl in Hrest. by injection Hrest as <-.
    + simpl in Hrest. by injection Hrest as <-.
  - intros (fields & Hf & Hv & ->). exists fields. split; [done |].
    destruct (validationRequired (options this)); [| done].
    by rewrite Hv.
Qed.

(** C6. When [project] emits a fragment, the fragment is the brace block of
    the queries of the normalized fields; these fields are the normalized
    results of exactly the entries whose configuration is not the boolean
    [false] (the only entries that normalize to null), as many as those
    entries and in the map's order. *)
Theorem project_field_count_and_order (this : GroqBuilder)
    (arg : ProjectionMapArg) (node : GroqBuilder) :
  New.project this arg = Ok node →
  ∃ fields,
    query node = query this +:+ braceBlock this (map Field.query fields)
    ∧ length fields = length (included (resolveMap this arg))
    ∧ map Field.key fields = map fst (included (resolveMap this arg))
    ∧ Forall2 (λ e f, normalizeProjectionField e.1 e.2 = Ok (Some f))
              (included (resolveMap this arg)) fields
    ∧ ∀ k c, (k, c) ∈ resolveMap this arg →
        (normalizeProjectionField k c = Ok None ↔ c = CfgBoolean false).
Proof.
  intros (fields & Hf & _ & ->)%project_Ok.
  apply normalizeFields_Ok in Hf.
  exists fields. split_and!.
  - done.
  - symmetry. by eapply Forall2_length.
  - induction Hf as [|e f m fs He _ IH]; [done |].
    simpl. f_equal; [| done].
    by destruct (normalize_Some_included _ _ _ He).
  - done.
  - intros k c _. apply normalize_None_iff.
Qed.

(** C4. With [validationRequired] enabled, when some normalized field has no
    parser [project] throws a type error and returns no node; the message
    names, in quotes, every normalized field that has no parser.  When
    every normalized field has a parser, [project] returns a node. *)
Theorem strict_project_lists_every_missing_parser (this : GroqBuilder)
    (arg : ProjectionMapArg) (fields : list NormalizedProjectionField) :
  validationRequired (options this) = true →
  normalizeFields (resolveMap this arg) = Ok fields →
  (Exists (λ f, Field.parser f = None) fields →
     ∃ msg,
       New.project this arg = Throw (TypeError msg)
       ∧ ∀ f, f ∈ fields → Field.parser f = None →
           includes msg (dq +:+ Field.key f +:+ dq))
  ∧ (Forall (λ f, is_Some (Field.parser f)) fields →
     New.project this arg =
       Ok (chain this (braceBlock this (map Field.query fields))
                 (New.createProjectionParser fields))).
Proof.
  intros Hstrict Hfields. split.
  - intros Hex.
    exists (New.missingValidationMessage (New.invalidFields fields)). split.
    + unfold New.project. rewrite Hfields. simpl. rewrite Hstrict.
      destruct (New.invalidFields fields) as [|f0 rest] eqn:Hinv; [| done].
      apply invalidFields_nil in Hinv.
      apply Exists_exists in Hex as (f & Hin & Hnone).
      rewrite Forall_forall in Hinv. specialize (Hinv f Hin).
      rewrite Hnone in Hinv. by destruct Hinv.
    + intros f Hin Hnone. unfold New.missingValidationMessage.
      do 3 apply includes_app_l. apply includes_join.
      apply (list_elem_of_fmap_2 (λ f, dq +:+ Field.key f +:+ dq)).
      unfold New.invalidFields. by apply list_elem_of_filter.
  - intros Hall. apply project_Ok. exists fields.
    split_and!; [done | | done]. intros _. by apply invalidFields_nil.
Qed.

(** C5, as amended.  When no normalized field has a parser and either
    [validationRequired] is off or no field is normalized, the combined
    parser is null and [project] still returns the node with the brace
    block appended, its parser being the receiver's; the empty map compiles,
    whatever the options, to a brace block without fields. *)
Theorem project_without_parsers (this : GroqBuilder)
    (arg : ProjectionMapArg) (fields : list NormalizedProjectionField) :
  normalizeFields (resolveMap this arg) = Ok fields →
  Forall (λ f, Field.parser f = None) fields →
  validationRequired (options this) = false ∨ fields = [] →
  New.createProjectionParser fields = None
  ∧ New.project this arg =
      Ok {| query := query this +:+ braceBlock this (map Field.query fields);
            parser := parser this;
            options := options this |}
  ∧ New.project this (MapObject []) =
      Ok {| query := query this +:+ " {" +:+ (indentation this).1
                       +:+ (indentation this).2 +:+ (indentation this).1
                       +:+ "}";
            parser := parser this;
            options := options this |}.
Proof.
  intros Hfields Hnone Hlax.
  assert (Hchain : ∀ q, chain this q None =
    {| query := query this +:+ q; parser := parser this;
       options := options this |}).
  { intros q. unfold chain. f_equal. by destruct (parser this). }
  assert (Hcreate : New.createProjectionParser fields = None).
  { unfold New.createProjectionParser.
    by rewrite (proj2 (someParser_false fields) Hnone). }
  split_and!.
  - done.
  - rewrite <-Hchain, <-Hcreate. apply project_Ok. exists fields.
    split_and!; [done | | done].
    intros Hstrict. destruct Hlax as [Hlax | ->]; [congruence | done].
  - unfold New.project. simpl.
    replace (match New.invalidFields [] with [] => Ok () | _ :: _ =>
      Throw (TypeError (New.missingValidationMessage (New.invalidFields [])))
      end) with (Ok () : result ()) by done.
    destruct (validationRequired (options this)); simpl;
      rewrite Hchain; unfold braceBlock;
      destruct (indentation this) as [newLine space]; reflexivity.
Qed.

End CompilerFacts.

(** ** The two revisions of [project] *)


Section Revisions.
Context `{Collaborators}.
Variable objectValidation_object :
  list (string * option ParserFunction) → ParserFunction.
Variable arrayValidation_array : ParserFunction → ParserFunction.
Hypothesis object_agrees : ∀ shape input,
  objectValidation_object shape input = simpleObjectParser shape input.
Hypothesis array_agrees : ∀ itemParser items,
  arrayValidation_array itemParser (VArr items) =
  simpleArrayParser itemParser (VArr items).







End Revisions.


Section RevisionsCompared.
Context `{Collaborators}.



End RevisionsCompared.

(** * Further properties of the code *)

(** ** The builder store *)

(** X1. The same node is the base of two independent descendants: chaining
    twice from one receiver allocates two distinct nodes, each with the
    receiver's query extended by its own fragment, and the receiver and
    the first descendant are what they were after the second call. *)
Theorem chain_twice_independent (σ : gmap Store.loc GroqBuilder)
    (this : Store.loc) (n : GroqBuilder) (f g : string)
    (p q : option ParserFunction) :
  σ !! this = Some n →
  ∃ l1 σ1 l2 σ2,
    Store.chain σ this f p = Some (l1, σ1)
    ∧ Store.chain σ1 this g q = Some (l2, σ2)
    ∧ l1 ≠ l2
    ∧ σ2 !! this = Some n
    ∧ σ2 !! l1 = Some (chain n f p)
    ∧ σ2 !! l2 = Some (chain n g q)
    ∧ query (chain n f p) = query n +:+ f
    ∧ query (chain n g q) = query n +:+ g.
Proof.
  intros Hthis.
  set (l1 := fresh (dom σ)).
  set (σ1 := <[l1 := chain n f p]> σ).
  assert (Hl1 : σ !! l1 = None) by apply not_elem_of_dom, is_fresh.
  assert (Hne1 : l1 ≠ this) by (intros Heq; rewrite Heq in Hl1; congruence).
  assert (Hthis1 : σ1 !! this = Some n).
  { unfold σ1. by rewrite lookup_insert_ne. }
  set (l2 := fresh (dom σ1)).
  assert (Hl2 : σ1 !! l2 = None) by apply not_elem_of_dom, is_fresh.
  assert (Hne2 : l1 ≠ l2).
  { intros Heq. rewrite <-Heq in Hl2. unfold σ1 in Hl2.
    by rewrite lookup_insert_eq in Hl2. }
  assert (Hne3 : l2 ≠ this) by (intros Heq; rewrite Heq in Hl2; congruence).
  exists l1, σ1, l2, (<[l2 := chain n g q]> σ1).
  unfold Store.chain, Store.alloc. rewrite Hthis. simpl.
  fold l1. fold σ1. rewrite Hthis1. simpl. fold l2.
  split_and!; try done.
  - by rewrite lookup_insert_ne.
  - rewrite lookup_insert_ne by done. unfold σ1. apply lookup_insert_eq.
  - apply lookup_insert_eq.
Qed.

(** X2. Query text is append-only along a chain: chaining [f] and then [g]
    from the new node gives the receiver's query followed by [f] and [g],
    under the receiver's options, and the intermediate node stays in the
    store with its own query. *)
Theorem chain_then_chain (σ : gmap Store.loc GroqBuilder)
    (this : Store.loc) (n : GroqBuilder) (f g : string)
    (p q : option ParserFunction) :
  σ !! this = Some n →
  ∃ l1 σ1 l2 σ2 n1 n2,
    Store.chain σ this f p = Some (l1, σ1)
    ∧ Store.chain σ1 l1 g q = Some (l2, σ2)
    ∧ σ2 !! l1 = Some n1
    ∧ σ2 !! l2 = Some n2
    ∧ query n1 = query n +:+ f
    ∧ query n2 = query n +:+ f +:+ g
    ∧ options n2 = options n
    ∧ σ2 !! this = Some n.
Proof.
  intros Hthis.
  set (l1 := fresh (dom σ)).
  set (σ1 := <[l1 := chain n f p]> σ).
  assert (Hl1 : σ !! l1 = None) by apply not_elem_of_dom, is_fresh.
  assert (Hne1 : l1 ≠ this) by (intros Heq; rewrite Heq in Hl1; congruence).
  assert (Hn1 : σ1 !! l1 = Some (chain n f p)) by apply lookup_insert_eq.
  set (l2 := fresh (dom σ1)).
  assert (Hl2 : σ1 !! l2 = None) by apply not_elem_of_dom, is_fresh.
  assert (Hne2 : l2 ≠ l1) by (intros Heq; rewrite Heq in Hl2; congruence).
  assert (Hne3 : l2 ≠ this).
  { intros Heq. rewrite Heq in Hl2. unfold σ1 in Hl2.
    rewrite lookup_insert_ne in Hl2 by done. congruence. }
  exists l1, σ1, l2, (<[l2 := chain (chain n f p) g q]> σ1),
    (chain n f p), (chain (chain n f p) g q).
  unfold Store.chain, Store.alloc. rewrite Hthis. simpl.
  fold l1. fold σ1. rewrite Hn1. simpl. fold l2.
  split_and!; try done.
  - by rewrite lookup_insert_ne.
  - apply lookup_insert_eq.
  - simpl. apply string_app_assoc.
  - rewrite lookup_insert_ne by done. unfold σ1. by rewrite lookup_insert_ne.
Qed.

(** ** The validators object *)

(** X3. A name resolves, in [validation], to the validator of the last of the
    four modules that defines it, in the order of the spreads: array
    shapes first, then object shapes, content blocks, primitives; a name
    no module defines is not in [validation]. *)
Theorem validation_precedence {V : Type}
    (primitiveValidation sanityValidation objectValidation
       arrayValidation : gmap string V) (name : string) :
  Validation.validation primitiveValidation sanityValidation
    objectValidation arrayValidation !! name =
  match arrayValidation !! name with
  | Some v => Some v
  | None =>
      match objectValidation !! name with
      | Some v => Some v
      | None =>
          match sanityValidation !! name with
          | Some v => Some v
          | None => primitiveValidation !! name
          end
      end
  end.
Proof.
  unfold Validation.validation, Validation.spread. simpl.
  rewrite !lookup_union, lookup_empty.
  destruct (arrayValidation !! name), (objectValidation !! name),
    (sanityValidation !! name), (primitiveValidation !! name); done.
Qed.

(** ** The normalizer and the errors of [project] *)

Lemma string_length_app (a b : string) :
  String.length (a +:+ b) = String.length a + String.length b.
Proof.
  induction a as [|ch a IH]; [done |].
  rewrite string_app_cons. simpl. by rewrite IH.
Qed.

(** The renamed form is never the bare key: it is longer. *)
Lemma renamed_ne_key (key e : string) : renamed key e ≠ key.
Proof.
  intros Heq. apply (f_equal String.length) in Heq.
  unfold renamed in Heq. rewrite !string_length_app in Heq.
  simpl in Heq. lia.
Qed.

Section NormalizerMore.
Context `{Collaborators}.

(** X4. Shorthand elision.  For a configuration that carries a field-path
    expression (a naked string, a pair, or a nested builder under a key
    that is not conditional) the fragment is the bare key exactly when the
    expression equals the key, and the key in quotes, a colon and the
    expression otherwise. *)
Theorem shorthand_elision (key : string) (c : ProjectionFieldConfig)
    (e : string) :
  expression c = Some e →
  isConditional key = false ∨ isBuilder c = false →
  ∃ f,
    normalizeProjectionField key c = Ok (Some f)
    ∧ Field.key f = key
    ∧ (Field.query f = key ↔ e = key)
    ∧ (e ≠ key → Field.query f = dq +:+ key +:+ dq +:+ ": " +:+ e).
Proof.
  intros He Hcond.
  assert (Hform : ∀ q : string,
    q = (if decide (key = e) then key else renamed key e) →
    (q = key ↔ e = key) ∧ (e ≠ key → q = renamed key e)).
  { intros q ->. destruct (decide (key = e)) as [->|Hne]; split; try done.
    split; [by intros ?%renamed_ne_key | by intros ->]. }
  destruct c as [b|s|[]|[pk| | | | |] p|p|u]; simpl in He; try done;
    injection He as <-; eexists; (split; [reflexivity |]); simpl;
    (split; [done |]).
  - destruct Hcond as [-> | ?]; [| done]. by apply Hform.
  - by apply Hform.
  - apply Hform. rewrite bool_decide_decide.
    by destruct (decide (key = pk)).
Qed.

Lemma normalize_supported (key : string) (c : ProjectionFieldConfig) :
  supported c = true → ∃ o, normalizeProjectionField key c = Ok o.
Proof. destruct c as [b|s|[]|pk p|p|u]; simpl; try done; eauto. Qed.

Lemma normalize_Throw (key : string) (c : ProjectionFieldConfig) (e : Exn) :
  normalizeProjectionField key c = Throw e →
  ∃ u, c = CfgOther u ∧ e = Error (unexpectedValueMessage key u).
Proof.
  destruct c as [b|s|[]|pk p|p|u]; simpl; try done.
  intros [= <-]. by exists u.
Qed.

Lemma mapM_normalize_supported (m : ProjectionMap) :
  Forall (λ e, supported e.2 = true) m →
  ∃ os, mapM (λ e, normalizeProjectionField e.1 e.2) m = Ok os.
Proof.
  induction 1 as [|e m He _ [os IH]]; [by exists [] |].
  destruct (normalize_supported e.1 e.2 He) as [o Ho].
  exists (o :: os). simpl. rewrite Ho. simpl. by rewrite IH.
Qed.

Lemma normalizeFields_supported (m : ProjectionMap) :
  Forall (λ e, supported e.2 = true) m →
  ∃ fields, normalizeFields m = Ok fields.
Proof.
  intros [os Hos]%mapM_normalize_supported.
  exists (filter_notNull os). unfold normalizeFields. by rewrite Hos.
Qed.


Lemma normalizeFields_Throw (m : ProjectionMap) (e : Exn) :
  normalizeFields m = Throw e →
  ∃ k u, (k, CfgOther u) ∈ m ∧ e = Error (unexpectedValueMessage k u).
Proof.
  unfold normalizeFields. induction m as [|[k c] m IH]; [done |].
  simpl. destruct (normalizeProjectionField k c) as [o|err] eqn:Hkc; simpl.
  - destruct (mapM _ m) as [os|err]; simpl in *; [done |].
    intros [= <-]. destruct (IH eq_refl) as (k' & u & Hin & ->).
    exists k', u. split; [by right | done].
  - intros [= <-]. apply normalize_Throw in Hkc as (u & -> & ->).
    exists k, u. split; [by left | done].
Qed.




Lemma strict_project_throws (this : GroqBuilder) (arg : ProjectionMapArg)
    (fields : list NormalizedProjectionField) (f : NormalizedProjectionField) :
  validationRequired (options this) = true →
  normalizeFields (resolveMap this arg) = Ok fields →
  f ∈ fields → Field.parser f = None →
  New.project this arg =
    Throw (TypeError (New.missingValidationMessage (New.invalidFields fields)))
  ∧ includes (New.missingValidationMessage (New.invalidFields fields))
             (dq +:+ Field.key f +:+ dq).
Proof.
  intros Hstrict Hf Hin Hnone.
  assert (Hinv : f ∈ New.invalidFields fields).
  { unfold New.invalidFields. by apply list_elem_of_filter. }
  split.
  - unfold New.project. rewrite Hf. simpl. rewrite Hstrict.
    destruct (New.invalidFields fields); [by apply elem_of_nil in Hinv | done].
  - unfold New.missingValidationMessage.
    do 3 apply includes_app_l. apply includes_join.
    by apply (list_elem_of_fmap_2 (λ f, dq +:+ Field.key f +:+ dq)).
Qed.

(** The field an included entry of the map normalizes to is among the
    normalized fields. *)
Lemma normalizeFields_elem (m : ProjectionMap)
    (fields : list NormalizedProjectionField) (k : string)
    (c : ProjectionFieldConfig) (f : NormalizedProjectionField) :
  normalizeFields m = Ok fields →
  (k, c) ∈ m →
  normalizeProjectionField k c = Ok (Some f) →
  f ∈ fields.
Proof.
  intros Hf Hin Hkc. apply normalizeFields_Ok in Hf.
  assert (Hinc : (k, c) ∈ included m).
  { unfold included. apply list_elem_of_filter. split; [| done].
    by destruct (normalize_Some_included _ _ _ Hkc). }
  apply list_elem_of_lookup in Hinc as [i Hi].
  destruct (Forall2_lookup_l _ _ _ _ _ Hf Hi) as (f' & Hf' & Hnorm).
  simpl in Hnorm. rewrite Hkc in Hnorm. injection Hnorm as <-.
  by eapply list_elem_of_lookup_2.
Qed.

(** X8. Under [validationRequired] the shortcuts are rejected: a map of
    supported values with a naked string or a [true] entry makes [project]
    throw the strictness error, and the message names that entry's key. *)
Theorem strict_rejects_shortcuts (this : GroqBuilder)
    (arg : ProjectionMapArg) (k : string) (c : ProjectionFieldConfig) :
  validationRequired (options this) = true →
  Forall (λ e, supported e.2 = true) (resolveMap this arg) →
  (k, c) ∈ resolveMap this arg →
  c = CfgBoolean true ∨ (∃ path, c = CfgString path) →
  ∃ msg,
    New.project this arg = Throw (TypeError msg)
    ∧ includes msg (dq +:+ k +:+ dq).
Proof.
  intros Hstrict [fields Hf]%normalizeFields_supported Hin Hc.
  assert (∃ f, normalizeProjectionField k c = Ok (Some f)
               ∧ Field.key f = k ∧ Field.parser f = None)
    as (f & Hkc & Hkey & Hnone).
  { destruct Hc as [-> | [path ->]]; eexists; by split_and!. }
  pose proof (normalizeFields_elem _ _ _ _ _ Hf Hin Hkc) as Hfin.
  destruct (strict_project_throws this arg fields f Hstrict Hf Hfin Hnone)
    as [Hthrow Hinc].
  eexists. split; [done |]. by rewrite <-Hkey.
Qed.

(** X9. A node [project] returns has the receiver's options, and its query is
    the receiver's query followed by one brace block; the fragment of
    every entry of the map that normalizes to a field shows in it. *)
Theorem project_extends_query (this : GroqBuilder)
    (arg : ProjectionMapArg) (node : GroqBuilder) :
  New.project this arg = Ok node →
  options node = options this
  ∧ (∃ body, query node = query this +:+ " {" +:+ body +:+ "}")
  ∧ ∀ k c f, (k, c) ∈ resolveMap this arg →
      normalizeProjectionField k c = Ok (Some f) →
      includes (query node) (Field.query f).
Proof.
  intros (fields & Hf & _ & ->)%project_Ok. simpl.
  unfold braceBlock. destruct (indentation this) as [newLine space].
  split_and!.
  - done.
  - eexists (newLine +:+ space +:+ join _ (map Field.query fields)
             +:+ newLine).
    by rewrite !string_app_assoc.
  - intros k c f Hin Hkc.
    pose proof (normalizeFields_elem _ _ _ _ _ Hf Hin Hkc) as Hfin.
    do 4 apply includes_app_l. apply includes_app_r, includes_join.
    by apply (list_elem_of_fmap_2 Field.query).
Qed.

(** X10. Under [validationRequired] the parsing stage is never skipped for a
    map with a field: a node [project] returns was chained with a combined
    parser, and every normalized field has a parser of its own. *)
Theorem strict_project_has_parser (this : GroqBuilder)
    (arg : ProjectionMapArg) (node : GroqBuilder) :
  validationRequired (options this) = true →
  New.project this arg = Ok node →
  included (resolveMap this arg) ≠ [] →
  ∃ fields P,
    normalizeFields (resolveMap this arg) = Ok fields
    ∧ Forall (λ f, is_Some (Field.parser f)) fields
    ∧ New.createProjectionParser fields = Some P
    ∧ node = chain this (braceBlock this (map Field.query fields)) (Some P).
Proof.
  intros Hstrict (fields & Hf & Hinv & ->)%project_Ok Hne.
  specialize (Hinv Hstrict). apply invalidFields_nil in Hinv.
  assert (Hsome : New.someParser fields = true).
  { apply someParser_true.
    pose proof (normalizeFields_Ok _ _ Hf) as Hall.
    destruct fields as [|f fields].
    - by apply Forall2_nil_inv_r in Hall.
    - apply Exists_cons_hd. by apply Forall_cons in Hinv as [? _]. }
  destruct (New.createProjectionParser fields) as [P|] eqn:HP.
  - by exists fields, P.
  - unfold New.createProjectionParser in HP. by rewrite Hsome in HP.
Qed.

End NormalizerMore.

(** ** The combined parser, further *)

Lemma assignAll_lookup_Some (acc : gmap string Value) (outs : list Value)
    (k : string) (v : Value) :
  assignAll acc outs !! k = Some v →
  acc !! k = Some v ∨ ∃ out, out ∈ outs ∧ ownProperties out !! k = Some v.
Proof.
  induction outs as [|o outs IH] using rev_ind; [by left |].
  rewrite assignAll_snoc. unfold Object_assign.
  intros [Ho | [_ Hacc]]%lookup_union_Some_raw.
  - right. exists o. split; [| done]. apply elem_of_app. right. left.
  - destruct (IH Hacc) as [? | (out & Hin & Hout)]; [by left |].
    right. exists out. split; [| done]. apply elem_of_app. by left.
Qed.

Lemma mapM_first_throw {A B} (f : A → result B) (pre post : list A)
    (x : A) (e : Exn) :
  Forall (λ a, ∃ b, f a = Ok b) pre →
  f x = Throw e →
  mapM f (pre ++ x :: post) = Throw e.
Proof.
  intros Hpre Hx. induction Hpre as [|a pre [b Hb] _ IH]; simpl.
  - by rewrite Hx.
  - rewrite Hb. simpl. by rewrite IH.
Qed.

Lemma set_entry_keys {A} (k : string) (v : A) (l : list (string * A))
    (k' : string) :
  k' ∈ map fst (set_entry k v l) ↔ k' = k ∨ k' ∈ map fst l.
Proof.
  induction l as [|[k0 v0] l IH]; simpl.
  - rewrite list_elem_of_singleton. split; [by left | intros [? | ?]; [done |]].
    by apply elem_of_nil in H.
  - destruct (decide (k = k0)) as [<-|Hne]; simpl.
    + rewrite !elem_of_cons. tauto.
    + rewrite !elem_of_cons, IH. tauto.
Qed.

Lemma set_entry_NoDup {A} (k : string) (v : A) (l : list (string * A)) :
  NoDup (map fst l) → NoDup (map fst (set_entry k v l)).
Proof.
  induction l as [|[k0 v0] l IH]; simpl.
  - intros _. apply NoDup_singleton.
  - intros [Hnotin Hnd]%NoDup_cons.
    destruct (decide (k = k0)) as [<-|Hne]; simpl.
    + by apply NoDup_cons.
    + apply NoDup_cons. split; [| by apply IH].
      rewrite set_entry_keys. intros [? | ?]; [congruence | done].
Qed.

Lemma fromEntries_keys {A} (entries : list (string * A)) :
  NoDup (map fst (Object_fromEntries entries))
  ∧ ∀ k, k ∈ map fst (Object_fromEntries entries) ↔ k ∈ map fst entries.
Proof.
  unfold Object_fromEntries.
  assert (Hgen : ∀ acc : list (string * A),
    NoDup (map fst acc) →
    NoDup (map fst (foldl (λ acc e, set_entry e.1 e.2 acc) acc entries))
    ∧ ∀ k, k ∈ map fst (foldl (λ acc e, set_entry e.1 e.2 acc) acc entries)
           ↔ k ∈ map fst acc ∨ k ∈ map fst entries).
  { induction entries as [|[k0 v0] entries IH]; intros acc Hacc; simpl.
    - split; [done |]. intros k. split; [by left | intros [? | ?]; [done |]].
      by apply elem_of_nil in H.
    - destruct (IH (set_entry k0 v0 acc) (set_entry_NoDup _ _ _ Hacc))
        as [Hnd Hkeys].
      split; [done |]. intros k.
      rewrite Hkeys, set_entry_keys, elem_of_cons. tauto. }
  destruct (Hgen [] (NoDup_nil_2)) as [Hnd Hkeys].
  split; [done |]. intros k. rewrite Hkeys. simpl.
  split; [intros [? | ?]; [| done] | by right].
  by apply elem_of_nil in H.
Qed.

Section ParserMore.
Context `{Collaborators}.

Lemma projectionParser_object (fields : list NormalizedProjectionField)
    (P : ParserFunction) (input : Value) :
  New.createProjectionParser fields = Some P →
  Array_isArray input = false →
  P input =
    New.objectParser fields input ≫= λ obj,
    mapM (λ p, p input) (New.conditionalParsers fields) ≫= λ outs,
    Ok (VObj (assignAll (Object_assign ∅ obj) outs)).
Proof.
  intros HP Hin.
  rewrite (createProjectionParser_Some _ _ HP), Hin.
  apply combinedParser_unfold.
Qed.

(** X11. The merged result invents no key: when the combined parser returns
    for a raw input that is not an array, the object-shape parser and every
    conditional parser returned, the result is an object, and each of its
    properties is a property, with that value, of one of their outputs. *)
Theorem merged_keys_come_from_outputs
    (fields : list NormalizedProjectionField) (P : ParserFunction)
    (input res : Value) :
  New.createProjectionParser fields = Some P →
  Array_isArray input = false →
  P input = Ok res →
  ∃ obj outs r,
    New.objectParser fields input = Ok obj
    ∧ mapM (λ p, p input) (New.conditionalParsers fields) = Ok outs
    ∧ res = VObj r
    ∧ ∀ k v, r !! k = Some v →
        ∃ out, out ∈ obj :: outs ∧ ownProperties out !! k = Some v.
Proof.
  intros HP Hin Hres.
  rewrite (projectionParser_object _ _ _ HP Hin) in Hres.
  apply bind_Ok in Hres as (obj & Hobj & Hres).
  apply bind_Ok in Hres as (outs & Houts & [= <-]).
  exists obj, outs, (assignAll (Object_assign ∅ obj) outs).
  split_and!; try done.
  intros k v [Hk | (out & Hout & Hk)]%assignAll_lookup_Some.
  - exists obj. split; [left |]. unfold Object_assign in Hk.
    by rewrite lookup_union_l in Hk by apply lookup_empty.
  - exists out. split; [by right | done].
Qed.

(** X12. An ordinary field's parsed value survives the merge unless a
    conditional output has the same key: a key that no conditional output
    has holds, in the result, what the object-shape parser's output holds
    for it (nothing, if that has no such key).  In particular, without
    conditional fields the result is the object-shape parser's output. *)
Theorem ordinary_field_survives
    (fields : list NormalizedProjectionField) (P : ParserFunction)
    (input obj : Value) (outs : list Value) (k : string) :
  New.createProjectionParser fields = Some P →
  Array_isArray input = false →
  New.objectParser fields input = Ok obj →
  mapM (λ p, p input) (New.conditionalParsers fields) = Ok outs →
  Forall (λ o, ownProperties o !! k = None) outs →
  ∃ r, P input = Ok (VObj r) ∧ r !! k = ownProperties obj !! k.
Proof.
  intros HP Hin Hobj Houts Hnone.
  exists (assignAll (Object_assign ∅ obj) outs). split.
  - rewrite (projectionParser_object _ _ _ HP Hin), Hobj. simpl.
    by rewrite Houts.
  - rewrite assignAll_lookup_none by done. unfold Object_assign.
    destruct (ownProperties obj !! k) as [v|] eqn:Hk.
    + by apply lookup_union_Some_l.
    + by rewrite lookup_union_r.
Qed.

(** X13. Failures propagate unchanged and in order: on a raw input that is not
    an array, the combined parser throws what the object-shape parser
    throws, and, when that one returns, what the first failing conditional
    parser throws; parsers after the failing one do not matter. *)
Theorem combined_parser_first_failure
    (fields : list NormalizedProjectionField) (P : ParserFunction)
    (input : Value) (e : Exn) :
  New.createProjectionParser fields = Some P →
  Array_isArray input = false →
  (New.objectParser fields input = Throw e → P input = Throw e)
  ∧ (∀ obj pre p post,
       New.objectParser fields input = Ok obj →
       New.conditionalParsers fields = pre ++ p :: post →
       Forall (λ q : ParserFunction, ∃ o, q input = Ok o) pre →
       p input = Throw e →
       P input = Throw e).
Proof.
  intros HP Hin.
  rewrite (projectionParser_object _ _ _ HP Hin). split.
  - by intros ->.
  - intros obj pre p post -> -> Hpre Hp. simpl.
    pose proof (mapM_first_throw (λ q : ParserFunction, q input)
                  pre post p e Hpre Hp) as Hthrow.
    unfold ParserFunction in *. by rewrite Hthrow.
Qed.

(** X14. The object shape holds each key of a field that is not conditional
    exactly once, and no conditional key: a conditional field never
    reaches the object-shape parser. *)
Theorem objectShape_keys (fields : list NormalizedProjectionField) :
  NoDup (map fst (New.objectShape fields))
  ∧ ∀ k, k ∈ map fst (New.objectShape fields)
         ↔ ∃ f, f ∈ fields ∧ Field.key f = k ∧ isConditional k = false.
Proof.
  unfold New.objectShape.
  destruct (fromEntries_keys
              (map (λ f, (Field.key f, Field.parser f))
                 (New.normalFields fields))) as [Hnd Hkeys].
  split; [done |]. intros k. rewrite Hkeys.
  rewrite <-list_fmap_compose. unfold New.normalFields.
  rewrite list_elem_of_fmap. split.
  - intros (f & -> & [Hc Hin]%list_elem_of_filter). exists f. simpl.
    split_and!; [done | done |].
    destruct (isConditional (Field.key f)); [| done].
    exfalso. apply Hc. exact I.
  - intros (f & Hin & <- & Hc). exists f. split; [done |].
    apply list_elem_of_filter. split; [| done]. rewrite Hc. intros [].
Qed.

Lemma conditionalParsers_cons (f : NormalizedProjectionField)
    (fields : list NormalizedProjectionField) :
  New.conditionalParsers (f :: fields) =
    (if isConditional (Field.key f)
     then match Field.parser f with Some p => [p] | None => [] end
     else []) ++ New.conditionalParsers fields.
Proof.
  unfold New.conditionalParsers, New.conditionalFields, filter_notNull.
  rewrite filter_cons.
  destruct (isConditional (Field.key f)); simpl; [| done].
  by destruct (Field.parser f).
Qed.

Lemma normalFields_cons (f : NormalizedProjectionField)
    (fields : list NormalizedProjectionField) :
  New.normalFields (f :: fields) =
    if isConditional (Field.key f) then New.normalFields fields
    else f :: New.normalFields fields.
Proof.
  unfold New.normalFields. rewrite filter_cons.
  by destruct (isConditional (Field.key f)).
Qed.

Lemma silent_filter_cons (f : NormalizedProjectionField)
    (fields : list NormalizedProjectionField) :
  filter (λ f, silentConditional f = false) (f :: fields) =
    if silentConditional f
    then filter (λ f, silentConditional f = false) fields
    else f :: filter (λ f, silentConditional f = false) fields.
Proof. rewrite filter_cons. by destruct (silentConditional f). Qed.

Lemma silent_filter_conditionalParsers
    (fields : list NormalizedProjectionField) :
  New.conditionalParsers (filter (λ f, silentConditional f = false) fields)
  = New.conditionalParsers fields.
Proof.
  induction fields as [|f fields IH]; [done |].
  rewrite silent_filter_cons, (conditionalParsers_cons f fields).
  destruct (silentConditional f) eqn:Hs.
  - unfold silentConditional in Hs.
    apply andb_true_iff in Hs as [-> Hp%bool_decide_eq_true].
    by rewrite Hp, IH.
  - by rewrite conditionalParsers_cons, IH.
Qed.

Lemma silent_filter_normalFields
    (fields : list NormalizedProjectionField) :
  New.normalFields (filter (λ f, silentConditional f = false) fields)
  = New.normalFields fields.
Proof.
  induction fields as [|f fields IH]; [done |].
  rewrite silent_filter_cons, (normalFields_cons f fields).
  destruct (silentConditional f) eqn:Hs.
  - unfold silentConditional in Hs.
    apply andb_true_iff in Hs as [-> _]. done.
  - by rewrite normalFields_cons, IH.
Qed.

Lemma silent_filter_someParser
    (fields : list NormalizedProjectionField) :
  New.someParser (filter (λ f, silentConditional f = false) fields)
  = New.someParser fields.
Proof.
  unfold New.someParser.
  induction fields as [|f fields IH]; [done |].
  rewrite silent_filter_cons.
  destruct (silentConditional f) eqn:Hs; simpl.
  - unfold silentConditional in Hs.
    apply andb_true_iff in Hs as [_ Hp%bool_decide_eq_true].
    rewrite Hp. rewrite bool_decide_eq_false_2 by (by intros [? [=]]).
    done.
  - by rewrite IH.
Qed.

(** X15. A conditional field without a parser takes no part in parsing: the
    projection parser of a list of fields is the one of the list without
    such fields, null in the same cases and equal on every input. *)
Theorem parserless_conditional_ignored
    (fields : list NormalizedProjectionField) :
  parser_equiv
    (New.createProjectionParser fields)
    (New.createProjectionParser
       (filter (λ f, silentConditional f = false) fields)).
Proof.
  unfold New.createProjectionParser. rewrite silent_filter_someParser.
  destruct (New.someParser fields); [| done]. simpl.
  assert (Hcomb : ∀ input,
    New.combinedParser fields input =
    New.combinedParser (filter (λ f, silentConditional f = false) fields)
      input).
  { intros input. unfold New.combinedParser, New.objectParser,
      New.objectShape.
    by rewrite silent_filter_normalFields, silent_filter_conditionalParsers. }
  intros [| | | | |items|]; simpl; try apply Hcomb.
  f_equal. by apply mapM_ext_result.
Qed.

End ParserMore.

(** * The theorems at work on concrete maps *)

#[local] Existing Instance Sample.collaborators.

Lemma normalize_nested_builder_witness :
  ∃ f g,
    normalizeProjectionField "OTHER"
      (CfgBuilder {| query := "name"; parser := Some Sample.isString;
                     options := Sample.lax |}) = Ok (Some f)
    ∧ Field.query f = dq +:+ "OTHER" +:+ dq +:+ ": name"
    ∧ Field.parser f = Some Sample.isString
    ∧ normalizeProjectionField "[Conditional] sale"
        (CfgBuilder {| query := "sale => { price }"; parser := None;
                       options := Sample.lax |}) = Ok (Some g)
    ∧ Field.query g = "sale => { price }".
Proof.
  destruct (normalize_nested_builder "OTHER"
              {| query := "name"; parser := Some Sample.isString;
                 options := Sample.lax |})
    as (f & Hf & _ & Hp & _ & _ & Hq).
  destruct (normalize_nested_builder "[Conditional] sale"
              {| query := "sale => { price }"; parser := None;
                 options := Sample.lax |})
    as (g & Hg & _ & _ & Hc & _).
  exists f, g. split_and!; [done | by apply Hq | done | done | by apply Hc].
Defined.

Lemma chain_fresh_node_same_options_witness :
  ∃ l h' n',
    Heap.chain Sample.heap 1%positive " { name }" None = Some (l, h')
    ∧ Heap.builders h' !! l = Some n'
    ∧ Heap.query n' = "*" +:+ " { name }"
    ∧ l ≠ 1%positive
    ∧ Heap.builders h' !! 1%positive = Some Sample.star
    ∧ Heap.optionsObjects h' = Heap.optionsObjects Sample.heap.
Proof.
  destruct (chain_fresh_node_same_options Sample.heap 1%positive
              Sample.star " { name }" None)
    as (l & h' & n' & Hc & Hl & Hq & _ & _ & Hne & Hthis & _ & Hobj & _);
    [reflexivity |].
  by exists l, h', n'.
Defined.

(** C7, the claim as it stands fails on its last clause: the node that
    [chain] returns holds the receiver's options object, not a copy, and
    a write to that object shows in both nodes. *)
Lemma chain_shares_options_object :
  ∃ l h' n',
    Heap.chain Sample.heap 1%positive " { name }" None = Some (l, h')
    ∧ l ≠ 1%positive
    ∧ Heap.builders h' !! l = Some n'
    ∧ Heap.options n' = Heap.options Sample.star
    ∧ Heap.readOptions h' l = Some Sample.lax
    ∧ Heap.readOptions
        (Heap.writeOptions h' (Heap.options Sample.star) Sample.strict) l
      = Some Sample.strict
    ∧ Heap.readOptions
        (Heap.writeOptions h' (Heap.options Sample.star) Sample.strict)
        1%positive
      = Some Sample.strict.
Proof.
  eexists _, _, _. split; [by vm_compute |].
  split_and!; by vm_compute.
Qed.

(** C8, the claim as it stands fails on arrays: [[42, isString]] is none
    of the five shapes, its first element being no field path, and the
    normalizer makes a field of it instead of throwing. *)
Lemma array_without_path_is_coerced :
  normalizeProjectionField "total"
    (CfgArray (ENumber "42") (ParserFn Sample.isString)) =
  Ok (Some {| Field.key := "total";
              Field.query := dq +:+ "total" +:+ dq +:+ ": 42";
              Field.parser := Some Sample.isString |}).
Proof. reflexivity. Qed.

Lemma projection_parser_array_or_object_witness :
  ∃ P,
    New.createProjectionParser Sample.pricedFields = Some P
    ∧ P Sample.variantA = New.combinedParser Sample.pricedFields Sample.variantA
    ∧ P (VArr [Sample.variantA; Sample.variantB]) =
        Ok (VArr [ VObj (<["name" := VStr "A"]> {["price" := VStr "$10"]});
                   VObj (<["name" := VStr "B"]> {["price" := VStr "$25"]}) ]).
Proof.
  destruct (projection_parser_array_or_object Sample.pricedFields)
    as (P & HP & Hobj & Harr & _).
  { apply Exists_cons_tl, Exists_cons_hd. by eexists. }
  exists P. split_and!; [done | by apply Hobj |].
  rewrite Harr. by vm_compute.
Defined.

Lemma combined_parser_merge_order_witness :
  ∃ r,
    Sample.projectionParser Sample.saleFields Sample.variantA = Ok (VObj r)
    ∧ r !! "badge" = Some (VStr "CLEARANCE").
Proof.
  destruct (combined_parser_merge_order Sample.saleFields
              (Sample.projectionParser Sample.saleFields) eq_refl)
    as [_ Hmerge].
  destruct (Hmerge Sample.variantA
              (VObj {["name" := VStr "A"]})
              [ VObj (<["badge" := VStr "SALE"]> {["name" := VStr "ON SALE"]});
                VObj {["badge" := VStr "CLEARANCE"]} ])
    as (r & Hr & Hlast); [done | by vm_compute | by vm_compute |].
  exists r. split; [done |].
  eapply (Hlast 0 1); [lia | done | by vm_compute | done | by vm_compute |].
  intros j' o' Hlt Hlook. destruct j' as [|[|j']]; [lia | lia | done].
Defined.

Lemma conditional_output_replaces_ordinary_field_witness :
  ∃ r,
    Sample.projectionParser Sample.saleFields Sample.variantA = Ok (VObj r)
    ∧ r !! "name" = Some (VStr "ON SALE").
Proof.
  apply (conditional_output_replaces_ordinary_field Sample.saleFields
           (Sample.projectionParser Sample.saleFields) Sample.variantA
           {["name" := VStr "A"]}
           [ VObj (<["badge" := VStr "SALE"]> {["name" := VStr "ON SALE"]});
             VObj {["badge" := VStr "CLEARANCE"]} ]
           0 (VObj (<["badge" := VStr "SALE"]> {["name" := VStr "ON SALE"]}))
           "name" (VStr "A") (VStr "ON SALE"));
    [done | done | by vm_compute | by vm_compute | by vm_compute | done
    | by vm_compute |].
  intros j' o' Hlt Hlook. destruct j' as [|[|j']]; [lia | | done].
  injection Hlook as <-. by vm_compute.
Defined.

Lemma strict_project_lists_every_missing_parser_witness :
  ∃ msg,
    New.project (Sample.qVariants Sample.strict)
      (MapObject Sample.renamingMap) = Throw (TypeError msg)
    ∧ includes msg (dq +:+ "NAME" +:+ dq)
    ∧ includes msg (dq +:+ "SLUG" +:+ dq).
Proof.
  destruct (strict_project_lists_every_missing_parser
              (Sample.qVariants Sample.strict) (MapObject Sample.renamingMap)
              [ {| Field.key := "NAME";
                   Field.query := dq +:+ "NAME" +:+ dq +:+ ": name";
                   Field.parser := None |};
                {| Field.key := "SLUG";
                   Field.query := dq +:+ "SLUG" +:+ dq +:+ ": slug.current";
                   Field.parser := None |};
                {| Field.key := "msrp"; Field.query := "msrp";
                   Field.parser := Some Sample.isString |} ]
              eq_refl eq_refl) as [Hthrow _].
  destruct Hthrow as (msg & Hmsg & Hall); [by apply Exists_cons_hd |].
  exists msg. split_and!; [done | |].
  - apply (Hall {| Field.key := "NAME";
                   Field.query := dq +:+ "NAME" +:+ dq +:+ ": name";
                   Field.parser := None |}); [| done].
    apply list_elem_of_here.
  - apply (Hall {| Field.key := "SLUG";
                   Field.query := dq +:+ "SLUG" +:+ dq +:+ ": slug.current";
                   Field.parser := None |}); [| done].
    apply list_elem_of_further, list_elem_of_here.
Defined.

(** C5, the claim as it stands fails under [validationRequired]: no
    normalized field of [{ name: true }] has a parser, and [project] throws
    instead of attaching a null parser to a compiled query. *)
Lemma strict_project_without_parsers_throws :
  normalizeFields [("name", CfgBoolean true)] =
    Ok [ {| Field.key := "name"; Field.query := "name";
            Field.parser := None |} ]
  ∧ New.project (Sample.qVariants Sample.strict)
      (MapObject [("name", CfgBoolean true)]) =
    Throw (TypeError (New.missingValidationMessage
      [ {| Field.key := "name"; Field.query := "name";
           Field.parser := None |} ]))
  ∧ ¬ ∃ node,
      New.project (Sample.qVariants Sample.strict)
        (MapObject [("name", CfgBoolean true)]) = Ok node.
Proof. split_and!; [done | done | by intros [node ?]]. Qed.

Lemma project_without_parsers_witness :
  New.project (Sample.qVariants Sample.lax)
    (MapObject [("name", CfgBoolean true)]) =
    Ok {| query := query (Sample.qVariants Sample.lax) +:+ " { name }";
          parser := None;
          options := Sample.lax |}
  ∧ New.project (Sample.qVariants Sample.strict) (MapObject []) =
    Ok {| query := query (Sample.qVariants Sample.strict) +:+ " {  }";
          parser := None;
          options := Sample.strict |}.
Proof.
  split.
  - destruct (project_without_parsers (Sample.qVariants Sample.lax)
                (MapObject [("name", CfgBoolean true)])
                [ {| Field.key := "name"; Field.query := "name";
                     Field.parser := None |} ])
      as (_ & Hproject & _);
      [done | by repeat constructor | by left | exact Hproject].
  - destruct (project_without_parsers (Sample.qVariants Sample.strict)
                (MapObject []) [])
      as (_ & _ & Hempty);
      [done | by constructor | by right | exact Hempty].
Defined.

Lemma project_field_count_and_order_witness :
  ∃ fields,
    query (Sample.qVariants Sample.lax) +:+ " { name, " +:+ dq +:+ "NAME"
      +:+ dq +:+ ": name }" =
    query (Sample.qVariants Sample.lax)
      +:+ braceBlock (Sample.qVariants Sample.lax) (map Field.query fields)
    ∧ length fields = 2
    ∧ map Field.key fields = ["name"; "NAME"].
Proof.
  destruct (project_field_count_and_order (Sample.qVariants Sample.lax)
              (MapObject Sample.plainMap)
              {| query := query (Sample.qVariants Sample.lax) +:+ " { name, "
                            +:+ dq +:+ "NAME" +:+ dq +:+ ": name }";
                 parser := None; options := Sample.lax |})
    as (fields & Hq & Hlen & Hkeys & _); [by vm_compute |].
  by exists fields.
Defined.


(** ** Scenarios of the test suite *)

Example project_single_plain_property :
  query <$> New.project (Sample.qVariants Sample.lax)
              (MapObject [("name", CfgBoolean true)]) =
  Ok ("*[_type == " +:+ dq +:+ "variant" +:+ dq +:+ "] { name }").
Proof. by vm_compute. Qed.

Example project_naked_projections :
  query <$> New.project (Sample.qVariants Sample.lax)
              (MapObject [ ("NAME", CfgString "name");
                           ("SLUG", CfgString "slug.current");
                           ("msrp", CfgString "msrp") ]) =
  Ok ("*[_type == " +:+ dq +:+ "variant" +:+ dq +:+ "] { " +:+ dq +:+ "NAME"
      +:+ dq +:+ ": name, " +:+ dq +:+ "SLUG" +:+ dq
      +:+ ": slug.current, msrp }").
Proof. by vm_compute. Qed.

Example project_ellipsis :
  query <$> New.project (Sample.qVariants Sample.lax)
              (MapFactory (λ q,
                 [ ("...", CfgBoolean true);
                   ("OTHER", CfgBuilder (chain q "name" None)) ])) =
  Ok ("*[_type == " +:+ dq +:+ "variant" +:+ dq +:+ "] { ..., " +:+ dq
      +:+ "OTHER" +:+ dq +:+ ": name }").
Proof. by vm_compute. Qed.

Example project_renamed_has_no_parser :
  parser <$> New.project (Sample.qVariants Sample.lax)
               (MapObject [("NAME", CfgString "name")]) = Ok None.
Proof. by vm_compute. Qed.

Example project_priced_parser :
  (New.project (Sample.qVariants Sample.lax)
     (MapObject [ ("name", CfgBoolean true);
                  ("price", CfgParser (ParserFn Sample.asPrice)) ])
   ≫= λ node, default (λ v, Ok v) (parser node) Sample.variantA) =
  Ok (VObj (<["name" := VStr "A"]> {["price" := VStr "$10"]})).
Proof. by vm_compute. Qed.

Example old_project_mixed :
  query <$> Old.project simpleObjectParser simpleArrayParser
              (Sample.qVariants Sample.strict)
              (MapObject [ ("name", CfgBoolean true);
                           ("price", CfgBoolean true) ]) =
  Ok ("*[_type == " +:+ dq +:+ "variant" +:+ dq +:+ "] { name, price }").
Proof. by vm_compute. Qed.

(** ** The further properties at work *)

Lemma chain_twice_independent_witness :
  ∃ l1 σ1 l2 σ2,
    Store.chain {[1%positive := Sample.qVariants Sample.lax]} 1%positive
      ".name" None = Some (l1, σ1)
    ∧ Store.chain σ1 1%positive ".price" None = Some (l2, σ2)
    ∧ l1 ≠ l2
    ∧ σ2 !! l1 = Some (chain (Sample.qVariants Sample.lax) ".name" None)
    ∧ σ2 !! l2 = Some (chain (Sample.qVariants Sample.lax) ".price" None).
Proof.
  destruct (chain_twice_independent
              {[1%positive := Sample.qVariants Sample.lax]} 1%positive
              (Sample.qVariants Sample.lax) ".name" ".price" None None)
    as (l1 & σ1 & l2 & σ2 & H1 & H2 & Hne & _ & Hl1 & Hl2 & _);
    [reflexivity |].
  by exists l1, σ1, l2, σ2.
Defined.

Lemma chain_then_chain_witness :
  ∃ l1 σ1 l2 σ2 n2,
    Store.chain {[1%positive := Sample.qVariants Sample.lax]} 1%positive
      ".slug" None = Some (l1, σ1)
    ∧ Store.chain σ1 l1 ".current" None = Some (l2, σ2)
    ∧ σ2 !! l2 = Some n2
    ∧ query n2 = query (Sample.qVariants Sample.lax) +:+ ".slug" +:+ ".current".
Proof.
  destruct (chain_then_chain
              {[1%positive := Sample.qVariants Sample.lax]} 1%positive
              (Sample.qVariants Sample.lax) ".slug" ".current" None None)
    as (l1 & σ1 & l2 & σ2 & n1 & n2 & H1 & H2 & _ & Hl2 & _ & Hq & _);
    [reflexivity |].
  by exists l1, σ1, l2, σ2, n2.
Defined.

Lemma shorthand_elision_witness :
  ∃ f g,
    normalizeProjectionField "SLUG" (CfgString "slug.current") = Ok (Some f)
    ∧ Field.query f = dq +:+ "SLUG" +:+ dq +:+ ": slug.current"
    ∧ normalizeProjectionField "msrp"
        (CfgTuple "msrp" (ParserFn Sample.isString)) = Ok (Some g)
    ∧ Field.query g = "msrp".
Proof.
  destruct (shorthand_elision "SLUG" (CfgString "slug.current")
              "slug.current" eq_refl (or_intror eq_refl))
    as (f & Hf & _ & _ & Hq).
  destruct (shorthand_elision "msrp"
              (CfgTuple "msrp" (ParserFn Sample.isString))
              "msrp" eq_refl (or_intror eq_refl))
    as (g & Hg & _ & Hiff & _).
  exists f, g. split_and!; [done | by apply Hq | done | by apply Hiff].
Defined.



Lemma strict_rejects_shortcuts_witness :
  ∃ msg,
    New.project (Sample.qVariants Sample.strict)
      (MapObject Sample.renamingMap) = Throw (TypeError msg)
    ∧ includes msg (dq +:+ "SLUG" +:+ dq).
Proof.
  apply (strict_rejects_shortcuts (Sample.qVariants Sample.strict)
           (MapObject Sample.renamingMap) "SLUG"
           (CfgString "slug.current")).
  - done.
  - by repeat constructor.
  - apply list_elem_of_further, list_elem_of_here.
  - right. by exists "slug.current".
Defined.

Lemma project_extends_query_witness :
  ∃ node,
    New.project (Sample.qVariants Sample.lax) (MapObject Sample.plainMap)
      = Ok node
    ∧ options node = Sample.lax
    ∧ includes (query node) (dq +:+ "NAME" +:+ dq +:+ ": name").
Proof.
  destruct (New.project (Sample.qVariants Sample.lax)
              (MapObject Sample.plainMap)) as [node|e] eqn:Hnode;
    [| by vm_compute in Hnode].
  destruct (project_extends_query _ _ _ Hnode) as (Hopt & _ & Hfrag).
  exists node. split_and!; [done | done |].
  apply (Hfrag "NAME" (CfgString "name")
           {| Field.key := "NAME";
              Field.query := dq +:+ "NAME" +:+ dq +:+ ": name";
              Field.parser := None |}); [| done].
  do 2 apply list_elem_of_further. apply list_elem_of_here.
Defined.

Lemma strict_project_has_parser_witness :
  ∃ node P,
    New.project (Sample.qVariants Sample.strict)
      (MapObject [("msrp", CfgParser (ParserFn Sample.isString))]) = Ok node
    ∧ parser node = Some P.
Proof.
  destruct (New.project (Sample.qVariants Sample.strict)
              (MapObject [("msrp", CfgParser (ParserFn Sample.isString))]))
    as [node|e] eqn:Hnode; [| by vm_compute in Hnode].
  destruct (strict_project_has_parser (Sample.qVariants Sample.strict)
              (MapObject [("msrp", CfgParser (ParserFn Sample.isString))])
              node)
    as (fields & P & _ & _ & _ & Heq); [done | done | done |].
  exists node, P. split; [done |]. by rewrite Heq.
Defined.

Lemma merged_keys_come_from_outputs_witness :
  ∃ r : gmap string Value,
    Sample.projectionParser Sample.saleFields Sample.variantA = Ok (VObj r)
    ∧ ∀ k v, r !! k = Some v → k = "name" ∨ k = "badge".
Proof.
  destruct (Sample.projectionParser Sample.saleFields Sample.variantA)
    as [res|e] eqn:Hres; [| by vm_compute in Hres].
  destruct (merged_keys_come_from_outputs Sample.saleFields
              (Sample.projectionParser Sample.saleFields)
              Sample.variantA res eq_refl eq_refl Hres)
    as (obj & outs & r & Hobj & Houts & -> & Hkeys).
  exists r. split; [done |]. intros k v Hk.
  destruct (Hkeys k v Hk) as (out & Hin & Hout).
  assert (Hobj' : obj = VObj {["name" := VStr "A"]}).
  { assert (Hc : New.objectParser Sample.saleFields Sample.variantA =
                 Ok (VObj {["name" := VStr "A"]})) by (by vm_compute).
    rewrite Hc in Hobj. by injection Hobj. }
  assert (Houts' : outs =
    [ VObj (<["badge" := VStr "SALE"]> {["name" := VStr "ON SALE"]});
      VObj {["badge" := VStr "CLEARANCE"]} ]).
  { assert (Hc : mapM (λ p : ParserFunction, p Sample.variantA)
                   (New.conditionalParsers Sample.saleFields) =
                 Ok [ VObj (<["badge" := VStr "SALE"]>
                              {["name" := VStr "ON SALE"]});
                      VObj {["badge" := VStr "CLEARANCE"]} ])
      by (by vm_compute).
    unfold ParserFunction in *. rewrite Hc in Houts. by injection Houts. }
  subst obj outs.
  repeat (apply elem_of_cons in Hin as [-> | Hin]); simpl in Hout.
  - apply lookup_singleton_Some in Hout as [<- _]. by left.
  - apply lookup_insert_Some in Hout as [[<- _] | [_ Hout]]; [by right |].
    apply lookup_singleton_Some in Hout as [<- _]. by left.
  - apply lookup_singleton_Some in Hout as [<- _]. by right.
  - by apply elem_of_nil in Hin.
Defined.

Lemma ordinary_field_survives_witness :
  ∃ r,
    Sample.projectionParser Sample.pricedFields Sample.variantA
      = Ok (VObj r)
    ∧ r !! "price" = Some (VStr "$10").
Proof.
  destruct (ordinary_field_survives Sample.pricedFields
              (Sample.projectionParser Sample.pricedFields) Sample.variantA
              (VObj (<["name" := VStr "A"]> {["price" := VStr "$10"]}))
              [] "price")
    as (r & Hr & Hk);
    [done | done | by vm_compute | done | by constructor |].
  exists r. split; [done |]. rewrite Hk. by vm_compute.
Defined.

Lemma combined_parser_first_failure_witness :
  Sample.projectionParser Sample.brokenFields Sample.variantA =
    Throw (TypeError "Expected a sale").
Proof.
  destruct (combined_parser_first_failure Sample.brokenFields
              (Sample.projectionParser Sample.brokenFields) Sample.variantA
              (TypeError "Expected a sale") eq_refl eq_refl)
    as [_ Hcond].
  apply (Hcond (VObj {["name" := VStr "A"]}) [] Sample.rejectAll
           [Sample.onClearance]);
    [by vm_compute | done | by constructor | done].
Defined.
